(** * DFAwordfinder: the character-trie automaton of [dfa_place_finder/dfa.py]

    The Python class [DFA] keeps its states as mutable [_Node] objects that
    are compared and hashed by identity.  The embedding therefore keeps an
    explicit object store (address -> node) and threads it through the
    methods; a Python [dict] is an association list in insertion order, a
    Python [str] is the list of its code points. *)

From Stdlib Require Import NArith String Ascii DecimalString DecimalNat.
From stdpp Require Import base option list gmap.

Open Scope list_scope.

(** ** Strings *)

(** A character is its Unicode code point; a [str] is a list of them. *)
Abbreviation char := N (only parsing).
Abbreviation str := (list N) (only parsing).

(** A source literal (all literals of the program are ASCII). *)
Definition lit (s : string) : str := N_of_ascii <$> list_ascii_of_string s.

Definition dquote : str := [34%N].
Definition backslash : str := [92%N].
Definition newline : str := [10%N].

(** [str(n)] for a non-negative [int]. *)
Definition str_of_nat (n : nat) : str := lit (NilEmpty.string_of_uint (Nat.to_uint n)).

(** [s.replace(old, new)] for a one-character [old]. *)
Definition replace (old : char) (new : str) (s : str) : str :=
  mbind (M := list) (λ c, if decide (c = old) then new else [c]) s.

(** [sep.join(parts)] *)
Fixpoint join (sep : str) (parts : list str) : str :=
  match parts with
  | [] => []
  | [p] => p
  | p :: rest => p ++ sep ++ join sep rest
  end.

(** [string.punctuation] *)
Definition punctuation : str :=
  lit "!" ++ dquote ++ lit "#$%&'()*+,-./:;<=>?@[\]^_`{|}~".

(** [ch in string.punctuation], for a one-character [ch]. *)
Definition is_punct (ch : char) : bool := bool_decide (ch ∈ punctuation).

(** ** Dictionaries: association lists in insertion order *)

Section dict.
Context {K V : Type} `{EqDecision K}.

(** [d.get(k)] *)
Fixpoint dict_get (k : K) (d : list (K * V)) : option V :=
  match d with
  | [] => None
  | (k', v) :: rest => if decide (k = k') then Some v else dict_get k rest
  end.

(** [d[k] = v]: an existing key keeps its position, a new one goes last. *)
Fixpoint dict_set (k : K) (v : V) (d : list (K * V)) : list (K * V) :=
  match d with
  | [] => [(k, v)]
  | (k', v') :: rest =>
      if decide (k = k') then (k', v) :: rest else (k', v') :: dict_set k v rest
  end.
End dict.

(** ** The object store *)

Abbreviation addr := nat (only parsing).

(** [DFA._Node]: [children] and [is_final]. *)
Record Node := mkNode { children : list (N * nat); is_final : bool }.

(** [_Node.__init__] *)
Definition new_node : Node := mkNode [] false.

(** Where a new object is placed is up to the runtime: any choice of an
    address that is not in use. *)
Record allocator := Allocator {
  alloc : gmap nat Node → nat;
  alloc_fresh : ∀ h, h !! alloc h = None
}.

(** Reading an object.  Every address the program holds is in use (see
    [wf_build]); the default is never taken on a built automaton. *)
Definition deref (h : gmap nat Node) (a : addr) : Node := default new_node (h !! a).

(** The automaton object: the store and its two fields. *)
Record DFA := mkDFA { mem : gmap nat Node; _root : nat; _trap_node : nat }.

Section methods.
Variable A : allocator.

(** [DFA.__init__] *)
Definition init : DFA :=
  let r := alloc A ∅ in
  let h1 := <[r := new_node]> (∅ : gmap nat Node) in
  let t := alloc A h1 in
  mkDFA (<[t := new_node]> h1) r t.

(** [node.children.setdefault(ch, self._Node())]: the argument is
    evaluated first, so a node is always constructed; when the key is
    present that node is never stored anywhere and is reclaimed. *)
Definition setdefault (h : gmap nat Node) (node : addr) (ch : char)
    : gmap nat Node * addr :=
  let fresh := alloc A h in
  let h1 := <[fresh := new_node]> h in
  let n := deref h1 node in
  match dict_get ch (children n) with
  | Some child => (delete fresh h1, child)
  | None => (<[node := mkNode (children n ++ [(ch, fresh)]) (is_final n)]> h1, fresh)
  end.

(** The [for ch in word] loop of [insert]. *)
Fixpoint insert_loop (h : gmap nat Node) (node : addr) (word : str)
    : gmap nat Node * addr :=
  match word with
  | [] => (h, node)
  | ch :: rest =>
      let '(h', node') := setdefault h node ch in
      insert_loop h' node' rest
  end.

(** [node.is_final = True] *)
Definition set_final (h : gmap nat Node) (node : addr) : gmap nat Node :=
  <[node := mkNode (children (deref h node)) true]> h.

(** [DFA.insert] *)
Definition insert (d : DFA) (word : str) : DFA :=
  let '(h, node) := insert_loop (mem d) (_root d) word in
  mkDFA (set_final h node) (_root d) (_trap_node d).

(** The automaton after a history of [insert] calls on a new object. *)
Definition build (ws : list str) : DFA := foldl insert init ws.
End methods.

(** The [for ch in text] loop of [accepts]; [break] ends it at the trap. *)
Fixpoint accepts_loop (h : gmap nat Node) (trap node : addr) (text : str) : addr :=
  match text with
  | [] => node
  | ch :: rest =>
      if is_punct ch then accepts_loop h trap node rest
      else match dict_get ch (children (deref h node)) with
           | None => trap
           | Some child => accepts_loop h trap child rest
           end
  end.

(** [DFA.accepts]; [_Node] defines no [__eq__], so [==] is identity. *)
Definition accepts (d : DFA) (text : str) : bool :=
  let node := accepts_loop (mem d) (_trap_node d) (_root d) text in
  if decide (node = _trap_node d) then false else is_final (deref (mem d) node).

(** ** Export *)

(** A quoted literal inside a line of output. *)
Definition quoted (s : string) : str := dquote ++ lit s ++ dquote.

(** The closure [get_id] of [to_dot], with [node_ids] passed explicitly;
    the dictionary is keyed by the node object, that is by its address. *)
Definition get_id (node_ids : list (nat * list N)) (n : addr)
    : list (nat * list N) * str :=
  match dict_get n node_ids with
  | Some s => (node_ids, s)
  | None =>
      let s := lit "Q" ++ str_of_nat (length node_ids) in
      (dict_set n s node_ids, s)
  end.

(** The initial value of [lines]; the source has no comma between its
    last two literals, which therefore form one element. *)
Definition preamble : list str :=
  [ lit "digraph DFA {";
    lit "  rankdir=LR;";
    lit "  graph [bgcolor=" ++ quoted "#131a2e" ++ lit "];";
    (lit "  node [shape=circle, style=filled, fillcolor=" ++ quoted "#103c69"
       ++ lit ", color=" ++ quoted "#2B65EC" ++ lit ", fontcolor=" ++ quoted "white"
       ++ lit ", fontname=" ++ quoted "Courier" ++ lit "];")
    ++ (lit "  edge [fontcolor=" ++ quoted "#00f7ff" ++ lit ", color="
       ++ quoted "#00f7ff" ++ lit ", fontname=" ++ quoted "Courier" ++ lit "];") ].

Definition start_node_line : str :=
  lit "  __start__ [shape=none,label=" ++ dquote ++ dquote ++ lit "];".

Definition start_edge_line (root_id : str) : str :=
  lit "  __start__ -> " ++ root_id ++ lit ";".

(** The style of an accepting state, as it follows the identifier. *)
Definition accept_style : str :=
  lit " [shape=doublecircle, style=filled, fillcolor="
    ++ quoted "#66CC66" ++ lit ", color=" ++ quoted "#339933"
    ++ lit ", fontcolor=" ++ quoted "white" ++ lit "];".

Definition accept_line (nid : str) : str := lit "  " ++ nid ++ accept_style.

(** [ch.replace(backslash, 2 backslashes).replace(quote, backslash quote)] *)
Definition escape (ch : char) : str :=
  replace 34%N (backslash ++ dquote) (replace 92%N (backslash ++ backslash) [ch]).

Definition edge_line (nid cid label : str) : str :=
  lit "  " ++ nid ++ lit " -> " ++ cid ++ lit " [label=" ++ dquote ++ label
    ++ dquote ++ lit "];".

(** The local variables of [to_dot] that the traversal updates. *)
Record bfs_state := mkBfs {
  node_ids : list (nat * list N);
  lines : list (list N);
  queue : list nat;
  seen : gset nat
}.

(** One round of [for ch, child in node.children.items()]. *)
Definition visit_child (nid : str) (st : bfs_state) (e : N * nat) : bfs_state :=
  let '(ch, child) := e in
  let '(ids, cid) := get_id (node_ids st) child in
  let lines' := lines st ++ [edge_line nid cid (escape ch)] in
  if decide (child ∈ seen st)
  then mkBfs ids lines' (queue st) (seen st)
  else mkBfs ids lines' (queue st ++ [child]) ({[child]} ∪ seen st).

(** The body of [while queue], for the popped [node] and the rest [q]. *)
Definition expand (h : gmap nat Node) (node : addr) (q : list nat)
    (st : bfs_state) : bfs_state :=
  let '(ids, nid) := get_id (node_ids st) node in
  let lines' :=
    if is_final (deref h node) then lines st ++ [accept_line nid] else lines st in
  foldl (visit_child nid) (mkBfs ids lines' q (seen st)) (children (deref h node)).

(** [while queue: ...], bounded by a number of rounds. *)
Fixpoint bfs_loop (h : gmap nat Node) (fuel : nat) (st : bfs_state)
    : option bfs_state :=
  match queue st with
  | [] => Some st
  | node :: q =>
      match fuel with
      | 0 => None
      | S fuel' => bfs_loop h fuel' (expand h node q st)
      end
  end.

(** The state of [to_dot] when the traversal starts. *)
Definition bfs_init (d : DFA) : bfs_state :=
  let '(ids, root_id) := get_id [] (_root d) in
  mkBfs ids (preamble ++ [start_node_line; start_edge_line root_id])
    [_root d] {[_root d]}.

(** The traversal of [to_dot]; a node enters the queue at most once, so
    as many rounds as the store has objects are enough
    (see [bfs_run_wf]). *)
Definition bfs_run (d : DFA) : option bfs_state :=
  bfs_loop (mem d) (size (mem d)) (bfs_init d).

(** [DFA.to_dot] *)
Definition to_dot (d : DFA) : option str :=
  st ← bfs_run d; Some (join newline (lines st ++ [lit "}"])).

(** ** Breadth-first discovery order, as the specification words it *)

(** The nodes in the order in which they are first reached as the target
    of an edge, the root first: [order] lists the nodes discovered so
    far and [queue] those still to be expanded. *)
Definition discover (st : list nat * list nat) (child : addr)
    : list nat * list nat :=
  if decide (child ∈ st.1) then st else (st.1 ++ [child], st.2 ++ [child]).

Fixpoint bfs_order_loop (h : gmap nat Node) (fuel : nat)
    (order queue : list nat) : option (list nat) :=
  match queue with
  | [] => Some order
  | node :: q =>
      match fuel with
      | 0 => None
      | S fuel' =>
          let '(order', q') :=
            foldl discover (order, q) ((children (deref h node)).*2) in
          bfs_order_loop h fuel' order' q'
      end
  end.

Definition bfs_order (d : DFA) : option (list nat) :=
  bfs_order_loop (mem d) (size (mem d)) [_root d] [_root d].

(** ** Allocators *)

(** The lowest free address. *)
Definition first_fit : allocator :=
  Allocator (λ h, fresh (dom h))
    (λ h, proj1 (not_elem_of_dom h (fresh (dom h))) (is_fresh (dom h))).

(** One past the largest address in use. *)
Definition bump : allocator :=
  Allocator (λ h, S (max_list (elements (dom h))))
    (λ h, proj1 (not_elem_of_dom h _)
       (λ Hin, Nat.nle_succ_diag_l _
          (max_list_elem_of_le _ _ (proj2 (elem_of_elements _ _) Hin)))).

(** ** Paths and invariants of the store *)

(** Following the stored transitions along [w], with no skipping. *)
Fixpoint walk (h : gmap nat Node) (node : addr) (w : str) : option nat :=
  match w with
  | [] => Some node
  | ch :: rest =>
      match dict_get ch (children (deref h node)) with
      | Some child => walk h child rest
      | None => None
      end
  end.

(** Every stored transition leads to an object of the store. *)
Definition closed (h : gmap nat Node) : Prop :=
  ∀ a n e, h !! a = Some n → e ∈ children n → is_Some (h !! e.2).

(** A dictionary has one entry per key. *)
Definition unique_keys (h : gmap nat Node) : Prop :=
  ∀ a n, h !! a = Some n → NoDup (children n).*1.

(** No stored transition leads to [t]. *)
Definition no_edge_to (h : gmap nat Node) (t : addr) : Prop :=
  ∀ a n e, h !! a = Some n → e ∈ children n → e.2 ≠ t.

(** What [insert] relies on while it stands at [node], [t] being the trap. *)
Record live (h : gmap nat Node) (t node : addr) : Prop := Live {
  live_closed : closed h;
  live_node : is_Some (h !! node);
  live_ne : node ≠ t;
  live_trap : h !! t = Some new_node;
  live_no_edge : no_edge_to h t;
  live_keys : unique_keys h
}.

(** The invariant of an automaton object. *)
Definition wf (d : DFA) : Prop := live (mem d) (_trap_node d) (_root d).

(** [h'] keeps every object of [h], with the transitions it had (new ones
    are added after them) and with its flag if it was set. *)
Definition extends (h h' : gmap nat Node) : Prop :=
  ∀ a n, h !! a = Some n →
    ∃ n', h' !! a = Some n' ∧ children n `prefix_of` children n'
          ∧ (is_final n = true → is_final n' = true).

(** The text with its punctuation removed. *)
Definition strip (text : str) : str := filter (λ ch, is_punct ch = false) text.

(** ** The traversal, round by round *)

(** One round of [while queue]; nothing happens once the queue is empty. *)
Definition bfs_round (h : gmap nat Node) (st : bfs_state) : bfs_state :=
  match queue st with
  | [] => st
  | node :: q => expand h node q st
  end.

(** The state of [to_dot] after [k] rounds of its loop. *)
Definition bfs_rounds (d : DFA) (k : nat) : bfs_state :=
  Nat.iter k (bfs_round (mem d)) (bfs_init d).

(** The identifier with number [i]. *)
Definition qname (i : nat) : str := lit "Q" ++ str_of_nat i.

(** Sequential identifiers for the nodes of [order], in that order. *)
Definition numbering (order : list nat) : list (nat * list N) :=
  imap (λ i a, (a, qname i)) order.

(** The identifier of [a] under the numbering of [order]. *)
Definition id_of (order : list nat) (a : addr) : str :=
  default [] (dict_get a (numbering order)).

(** The state [st] of the traversal has discovered exactly [order]. *)
Definition discovered (st : bfs_state) (order : list nat) : Prop :=
  node_ids st = numbering order ∧ ∀ a, a ∈ seen st ↔ a ∈ order.

(** The lines that expanding [a] contributes: its accepting style, if
    any, and one edge per transition. *)
Definition block (h : gmap nat Node) (order : list nat) (a : addr) : list (list N) :=
  (if is_final (deref h a) then [accept_line (id_of order a)] else [])
  ++ ((λ e, edge_line (id_of order a) (id_of order e.2) (escape e.1))
        <$> children (deref h a)).

(** All lines but the closing one, given the discovery order. *)
Definition body_lines (h : gmap nat Node) (order : list nat) : list (list N) :=
  preamble ++ [start_node_line; start_edge_line (qname 0)]
  ++ mbind (M := list) (block h order) order.



(** ** Stores that differ in their addresses only *)

(** Corresponding nodes: the same flag and, in the same order, the same
    symbols leading to corresponding objects. *)
Definition node_rel (R : nat → nat → Prop) (n1 n2 : Node) : Prop :=
  is_final n1 = is_final n2
  ∧ Forall2 (λ e1 e2, e1.1 = e2.1 ∧ R e1.2 e2.2) (children n1) (children n2).

(** [R] pairs the addresses of the objects of [h1] with those of the
    corresponding objects of [h2], one to one. *)
Record iso (R : nat → nat → Prop) (h1 h2 : gmap nat Node) : Prop := Iso {
  iso_nodes : ∀ a1 a2, R a1 a2 →
    ∃ n1 n2, h1 !! a1 = Some n1 ∧ h2 !! a2 = Some n2 ∧ node_rel R n1 n2;
  iso_fun : ∀ a1 a2 a2', R a1 a2 → R a1 a2' → a2 = a2';
  iso_inj : ∀ a1 a1' a2, R a1 a2 → R a1' a2 → a1 = a1'
}.

(** ** The shape of the tree *)

(** A path that the words [ws] put in the tree: the empty one, or the
    beginning of one of them. *)
Definition stored_prefix (ws : list (list N)) (p : list N) : Prop :=
  p = [] ∨ ∃ w, w ∈ ws ∧ p `prefix_of` w.

(** [path_of] names, for every object but the trap [t], the path that
    leads to it from [root]: every stored transition extends the path of
    its source by its symbol.  [P] holds of the paths in use and [F] of
    those that end in an accepting node. *)
Record shaped (h : gmap nat Node) (root t : nat) (P F : list N → Prop)
    (path_of : nat → list N) : Prop := Shaped {
  sh_root : path_of root = [];
  sh_edge : ∀ a n e, h !! a = Some n → e ∈ children n →
    path_of e.2 = path_of a ++ [e.1];
  sh_reach : ∀ a, is_Some (h !! a) → a ≠ t → walk h root (path_of a) = Some a;
  sh_used : ∀ a, is_Some (h !! a) → a ≠ t → P (path_of a);
  sh_final : ∀ a n, h !! a = Some n → is_final n = true → F (path_of a)
}.

(** Literals and lines are not unfolded when goals are simplified. *)
Global Opaque lit str_of_nat preamble accept_style.
Global Arguments qname : simpl never.
Global Arguments numbering : simpl never.
Global Arguments id_of : simpl never.
Global Arguments start_node_line : simpl never.
Global Arguments start_edge_line : simpl never.
Global Arguments accept_line : simpl never.
Global Arguments edge_line : simpl never.
Global Arguments escape : simpl never.

(** ** The embedding on small inputs *)

Example punctuation_codes :
  punctuation =
    [33; 34; 35; 36; 37; 38; 39; 40; 41; 42; 43; 44; 45; 46; 47; 58; 59; 60; 61;
     62; 63; 64; 91; 92; 93; 94; 95; 96; 123; 124; 125; 126]%N.
Proof. by vm_compute. Qed.

Example shared_prefix :
  let d := build first_fit [lit "cat"; lit "car"] in
  accepts d (lit "cat") = true ∧ accepts d (lit "car") = true
  ∧ accepts d (lit "ca") = false ∧ accepts d (lit "c,a.t") = true
  ∧ accepts d (lit "cart") = false
  ∧ node_ids <$> bfs_run d =
      Some [(0, lit "Q0"); (2, lit "Q1"); (3, lit "Q2"); (4, lit "Q3"); (5, lit "Q4")]
  ∧ bfs_order d = Some [0; 2; 3; 4; 5].
Proof. by vm_compute. Qed.

Example export_lines_a_ab :
  lines <$> bfs_run (build bump [lit "a"; lit "ab"]) =
    Some (preamble ++
      [ start_node_line; start_edge_line (lit "Q0");
        edge_line (lit "Q0") (lit "Q1") (lit "a");
        accept_line (lit "Q1");
        edge_line (lit "Q1") (lit "Q2") (lit "b");
        accept_line (lit "Q2") ]).
Proof. by vm_compute. Qed.

Example escape_quote_backslash :
  escape 34%N = backslash ++ dquote ∧ escape 92%N = backslash ++ backslash
  ∧ escape 97%N = lit "a".
Proof. by vm_compute. Qed.

(** ** Dictionaries *)

Section dict_facts.
Context {K V : Type} `{EqDecision K}.
Implicit Types (d : list (K * V)) (k : K) (v : V).

Lemma dict_get_app_l k d d' v :
  dict_get k d = Some v → dict_get k (d ++ d') = Some v.
Proof.
  induction d as [|[k' v'] d IH]; simpl; [done|].
  case_decide; auto.
Qed.

Lemma dict_get_app_r k d d' :
  dict_get k d = None → dict_get k (d ++ d') = dict_get k d'.
Proof.
  induction d as [|[k' v'] d IH]; simpl; [done|].
  case_decide; [done | auto].
Qed.

Lemma dict_get_prefix k d d' v :
  d `prefix_of` d' → dict_get k d = Some v → dict_get k d' = Some v.
Proof. intros [e ->]. apply dict_get_app_l. Qed.

Lemma dict_get_elem k d v : dict_get k d = Some v → (k, v) ∈ d.
Proof.
  induction d as [|[k' v'] d IH]; simpl; [done|].
  case_decide; intros Hg.
  - simplify_eq. left.
  - right. auto.
Qed.

Lemma dict_get_None k d : dict_get k d = None ↔ k ∉ d.*1.
Proof.
  induction d as [|[k' v'] d IH]; simpl.
  - split; [intros _; apply not_elem_of_nil | done].
  - rewrite not_elem_of_cons. case_decide; [|tauto].
    split; [done | tauto].
Qed.

Lemma dict_set_new k v d : dict_get k d = None → dict_set k v d = d ++ [(k, v)].
Proof.
  induction d as [|[k' v'] d IH]; simpl; [done|].
  case_decide; [done|]. intros Hg. by rewrite IH.
Qed.
End dict_facts.

(** ** Insertion *)

Lemma deref_Some h a n : h !! a = Some n → deref h a = n.
Proof. unfold deref. by intros ->. Qed.

Lemma extends_refl h : extends h h.
Proof. intros a n Ha. exists n. done. Qed.

Lemma extends_trans h1 h2 h3 : extends h1 h2 → extends h2 h3 → extends h1 h3.
Proof.
  intros H12 H23 a n Ha.
  destruct (H12 a n Ha) as (n2 & Ha2 & Hp2 & Hf2).
  destruct (H23 a n2 Ha2) as (n3 & Ha3 & Hp3 & Hf3).
  exists n3. split_and!; [done | by etrans | auto].
Qed.

Lemma walk_extends h h' w a b :
  extends h h' → walk h a w = Some b → walk h' a w = Some b.
Proof.
  intros Hext. revert a. induction w as [|ch w IH]; intros a; simpl; [done|].
  destruct (dict_get ch (children (deref h a))) as [c|] eqn:Hg; [|done].
  intros Hw. unfold deref in Hg.
  destruct (h !! a) as [n|] eqn:Ha; [|done]. simpl in Hg.
  destruct (Hext a n Ha) as (n' & Ha' & Hp & _).
  rewrite (deref_Some _ _ _ Ha'), (dict_get_prefix _ _ _ _ Hp Hg). auto.
Qed.

Lemma walk_app h a w1 w2 :
  walk h a (w1 ++ w2) = walk h a w1 ≫= λ b, walk h b w2.
Proof.
  revert a. induction w1 as [|ch w1 IH]; intros a; simpl; [done|].
  destruct (dict_get ch (children (deref h a))); [apply IH | done].
Qed.

Section insert_facts.
Variable A : allocator.

Lemma setdefault_hit h node ch n c :
  h !! node = Some n → dict_get ch (children n) = Some c →
  setdefault A h node ch = (h, c).
Proof.
  intros Hn Hg. unfold setdefault.
  assert (alloc A h ≠ node) as Hne.
  { intros <-. by rewrite alloc_fresh in Hn. }
  unfold deref. rewrite lookup_insert_ne, Hn by done. simpl. rewrite Hg.
  by rewrite delete_insert_eq, delete_id by apply alloc_fresh.
Qed.

Lemma setdefault_miss h node ch n :
  h !! node = Some n → dict_get ch (children n) = None →
  setdefault A h node ch =
    (<[node := mkNode (children n ++ [(ch, alloc A h)]) (is_final n)]>
       (<[alloc A h := new_node]> h), alloc A h).
Proof.
  intros Hn Hg. unfold setdefault.
  assert (alloc A h ≠ node) as Hne.
  { intros <-. by rewrite alloc_fresh in Hn. }
  unfold deref. rewrite lookup_insert_ne, Hn by done. simpl. by rewrite Hg.
Qed.
Lemma setdefault_live h t node ch h' c :
  live h t node → setdefault A h node ch = (h', c) →
  live h' t c ∧ extends h h' ∧ dict_get ch (children (deref h' node)) = Some c.
Proof.
  intros [Hcl [n Hn] Hne Ht Hno Hk] Hsd.
  destruct (dict_get ch (children n)) as [c'|] eqn:Hg.
  - rewrite (setdefault_hit _ _ _ _ _ Hn Hg) in Hsd. simplify_eq.
    pose proof (dict_get_elem _ _ _ Hg) as Hin.
    split_and!; [split; try done | apply extends_refl | by rewrite (deref_Some _ _ _ Hn)].
    + apply (Hcl _ _ _ Hn Hin).
    + apply (Hno _ _ _ Hn Hin).
  - rewrite (setdefault_miss _ _ _ _ Hn Hg) in Hsd. simplify_eq.
    set (a := alloc A h).
    assert (h !! a = None) as Ha by apply alloc_fresh.
    assert (a ≠ node) as Han by (intros E; rewrite E in Ha; congruence).
    assert (a ≠ t) as Hat by (intros E; rewrite E in Ha; congruence).
    assert (∀ x, is_Some (h !! x) →
      is_Some (<[node:=mkNode (children n ++ [(ch, a)]) (is_final n)]>
                 (<[a:=new_node]> h) !! x)) as Hkeep.
    { intros x Hx. destruct (decide (node = x)) as [->|];
        [by rewrite lookup_insert_eq|].
      rewrite lookup_insert_ne by done.
      destruct (decide (a = x)) as [->|]; [by rewrite lookup_insert_eq|].
      by rewrite lookup_insert_ne. }
    split_and!; [split | |].
    + intros x nx e Hx He.
      destruct (decide (node = x)) as [->|Hnx].
      * rewrite lookup_insert_eq in Hx. simplify_eq. simpl in He.
        apply elem_of_app in He as [He|He%list_elem_of_singleton].
        -- apply Hkeep, (Hcl _ _ _ Hn He).
        -- subst e. simpl. rewrite lookup_insert_ne, lookup_insert_eq; done.
      * rewrite lookup_insert_ne in Hx by done.
        destruct (decide (a = x)) as [->|Hax].
        -- rewrite lookup_insert_eq in Hx. simplify_eq. by apply elem_of_nil in He.
        -- rewrite lookup_insert_ne in Hx by done. apply Hkeep, (Hcl _ _ _ Hx He).
    + rewrite lookup_insert_ne, lookup_insert_eq; done.
    + done.
    + rewrite !lookup_insert_ne; done.
    + intros x nx e Hx He.
      destruct (decide (node = x)) as [->|Hnx].
      * rewrite lookup_insert_eq in Hx. simplify_eq. simpl in He.
        apply elem_of_app in He as [He|He%list_elem_of_singleton].
        -- apply (Hno _ _ _ Hn He).
        -- by subst e.
      * rewrite lookup_insert_ne in Hx by done.
        destruct (decide (a = x)) as [->|Hax].
        -- rewrite lookup_insert_eq in Hx. simplify_eq. by apply elem_of_nil in He.
        -- rewrite lookup_insert_ne in Hx by done. apply (Hno _ _ _ Hx He).
    + intros x nx Hx.
      destruct (decide (node = x)) as [->|Hnx].
      * rewrite lookup_insert_eq in Hx. simplify_eq. simpl.
        rewrite fmap_app. apply NoDup_app. split_and!; [by eapply Hk | | apply NoDup_singleton].
        intros k Hin ->%list_elem_of_singleton. by apply dict_get_None in Hg.
      * rewrite lookup_insert_ne in Hx by done.
        destruct (decide (a = x)) as [->|Hax].
        -- rewrite lookup_insert_eq in Hx. simplify_eq. apply NoDup_nil_2.
        -- rewrite lookup_insert_ne in Hx by done. by eapply Hk.
    + intros x nx Hx.
      destruct (decide (node = x)) as [->|Hnx].
      * rewrite lookup_insert_eq. simplify_eq. eexists. split; [done|].
        simpl. split; [by apply prefix_app_r | done].
      * rewrite lookup_insert_ne by done.
        assert (a ≠ x) by (intros E; rewrite E in Ha; congruence).
        rewrite lookup_insert_ne by done. exists nx. done.
    + unfold deref. rewrite lookup_insert_eq. simpl.
      rewrite dict_get_app_r by done. simpl. by rewrite decide_True.
Qed.

Lemma insert_loop_live h t node w h' n' :
  live h t node → insert_loop A h node w = (h', n') →
  live h' t n' ∧ extends h h' ∧ walk h' node w = Some n'.
Proof.
  revert h node. induction w as [|ch w IH]; intros h node Hl; simpl.
  - intros [= <- <-]. split_and!; [done | apply extends_refl | done].
  - destruct (setdefault A h node ch) as [h1 c] eqn:Hsd. intros Hloop.
    destruct (setdefault_live _ _ _ _ _ _ Hl Hsd) as (Hl1 & Hext1 & Hg1).
    destruct (IH _ _ Hl1 Hloop) as (Hl' & Hext' & Hw').
    split_and!; [done | by eapply extends_trans |].
    assert (walk h' node [ch] = Some c) as Hstep.
    { apply (walk_extends _ _ _ _ _ Hext'). simpl. by rewrite Hg1. }
    simpl in Hstep |- *.
    destruct (dict_get ch (children (deref h' node))); by simplify_eq.
Qed.

(** On a path that is already stored the loop changes nothing. *)
Lemma insert_loop_walk h t node w n' :
  live h t node → walk h node w = Some n' → insert_loop A h node w = (h, n').
Proof.
  revert node. induction w as [|ch w IH]; intros node Hl; simpl.
  - by intros [= ->].
  - destruct (live_node _ _ _ Hl) as [n Hn].
    rewrite (deref_Some _ _ _ Hn).
    destruct (dict_get ch (children n)) as [c|] eqn:Hg; [|done].
    intros Hw. pose proof (setdefault_hit _ _ _ _ _ Hn Hg) as Hsd.
    rewrite Hsd. apply IH; [|done].
    by destruct (setdefault_live _ _ _ _ _ _ Hl Hsd) as (? & _ & _).
Qed.

Lemma set_final_live h t node x :
  live h t node → is_Some (h !! x) → x ≠ t →
  live (set_final h node) t x ∧ extends h (set_final h node)
  ∧ is_final (deref (set_final h node) node) = true.
Proof.
  intros [Hcl [n Hn] Hne Ht Hno Hk] Hx Hxt. unfold set_final.
  rewrite (deref_Some _ _ _ Hn).
  assert (∀ y, is_Some (h !! y) →
    is_Some (<[node:=mkNode (children n) true]> h !! y)) as Hkeep.
  { intros y Hy. destruct (decide (node = y)) as [->|];
      [by rewrite lookup_insert_eq | by rewrite lookup_insert_ne]. }
  split_and!; [split | |].
  - intros y ny e Hy He. apply Hkeep.
    destruct (decide (node = y)) as [->|].
    + rewrite lookup_insert_eq in Hy. simplify_eq. apply (Hcl _ _ _ Hn He).
    + rewrite lookup_insert_ne in Hy by done. apply (Hcl _ _ _ Hy He).
  - by apply Hkeep.
  - done.
  - by rewrite lookup_insert_ne.
  - intros y ny e Hy He.
    destruct (decide (node = y)) as [->|].
    + rewrite lookup_insert_eq in Hy. simplify_eq. apply (Hno _ _ _ Hn He).
    + rewrite lookup_insert_ne in Hy by done. apply (Hno _ _ _ Hy He).
  - intros y ny Hy. destruct (decide (node = y)) as [->|].
    + rewrite lookup_insert_eq in Hy. simplify_eq. simpl. by eapply Hk.
    + rewrite lookup_insert_ne in Hy by done. by eapply Hk.
  - intros y ny Hy. destruct (decide (node = y)) as [->|].
    + rewrite lookup_insert_eq. simplify_eq. eexists. split; [done|]. done.
    + rewrite lookup_insert_ne by done. by exists ny.
  - unfold deref. by rewrite lookup_insert_eq.
Qed.

Lemma set_final_idem h node : set_final (set_final h node) node = set_final h node.
Proof.
  unfold set_final, deref. rewrite lookup_insert_eq. simpl.
  by rewrite insert_insert_eq.
Qed.

Lemma wf_init : wf (init A).
Proof.
  unfold wf, init. simpl.
  set (r := alloc A ∅). set (h1 := <[r:=new_node]> (∅ : gmap nat Node)).
  set (t := alloc A h1).
  assert (h1 !! t = None) as Ht by apply alloc_fresh.
  assert (t ≠ r) as Htr.
  { intros E. rewrite E in Ht. unfold h1 in Ht. by rewrite lookup_insert_eq in Ht. }
  assert (∀ a n, <[t:=new_node]> h1 !! a = Some n → n = new_node) as Hall.
  { intros a n. unfold h1. rewrite !lookup_insert. repeat case_decide; naive_solver. }
  split.
  - intros a n e Ha He. rewrite (Hall _ _ Ha) in He. by apply elem_of_nil in He.
  - rewrite lookup_insert_ne by done. unfold h1. by rewrite lookup_insert_eq.
  - done.
  - by rewrite lookup_insert_eq.
  - intros a n e Ha He. rewrite (Hall _ _ Ha) in He. by apply elem_of_nil in He.
  - intros a n Ha. rewrite (Hall _ _ Ha). apply NoDup_nil_2.
Qed.

(** What one call of [insert] does to a well-formed automaton. *)
Lemma insert_spec d w :
  wf d →
  wf (insert A d w) ∧ extends (mem d) (mem (insert A d w))
  ∧ _root (insert A d w) = _root d ∧ _trap_node (insert A d w) = _trap_node d
  ∧ ∃ n, walk (mem (insert A d w)) (_root d) w = Some n ∧ n ≠ _trap_node d
         ∧ is_final (deref (mem (insert A d w)) n) = true.
Proof.
  intros Hwf. unfold insert.
  destruct (insert_loop A (mem d) (_root d) w) as [h n] eqn:Hloop. simpl.
  destruct (insert_loop_live _ _ _ _ _ _ Hwf Hloop) as (Hl & Hext & Hw).
  assert (is_Some (h !! _root d)) as Hr.
  { destruct (live_node _ _ _ Hwf) as [nr Hnr].
    destruct (Hext _ _ Hnr) as (nr' & -> & _). done. }
  destruct (set_final_live _ _ _ _ Hl Hr (live_ne _ _ _ Hwf)) as (Hl' & Hext' & Hfin).
  split_and!; [done | by eapply extends_trans | done | done |].
  exists n. split_and!; [by eapply walk_extends | apply (live_ne _ _ _ Hl) | done].
Qed.

Lemma wf_foldl_insert d ws : wf d → wf (foldl (insert A) d ws).
Proof.
  revert d. induction ws as [|w ws IH]; intros d Hd; simpl; [done|].
  apply IH. by destruct (insert_spec d w Hd) as (? & _).
Qed.

Lemma wf_build ws : wf (build A ws).
Proof. apply wf_foldl_insert, wf_init. Qed.

Lemma foldl_insert_fields d ws :
  wf d →
  extends (mem d) (mem (foldl (insert A) d ws))
  ∧ _root (foldl (insert A) d ws) = _root d
  ∧ _trap_node (foldl (insert A) d ws) = _trap_node d.
Proof.
  revert d. induction ws as [|w ws IH]; intros d Hd; simpl.
  - split_and!; [apply extends_refl | done | done].
  - destruct (insert_spec d w Hd) as (Hwf & Hext & Hr & Ht & _).
    destruct (IH _ Hwf) as (Hext' & -> & ->).
    split_and!; [by eapply extends_trans | done | done].
Qed.
End insert_facts.

(** ** Matching *)

Lemma strip_cons_punct ch text : is_punct ch = true → strip (ch :: text) = strip text.
Proof. intros H. unfold strip. rewrite filter_cons_False; [done | congruence]. Qed.

Lemma strip_cons_keep ch text :
  is_punct ch = false → strip (ch :: text) = ch :: strip text.
Proof. intros H. unfold strip. by rewrite filter_cons_True. Qed.

Lemma strip_no_punct w : forallb (λ ch, negb (is_punct ch)) w = true → strip w = w.
Proof.
  induction w as [|ch w IH]; simpl; [done|].
  intros [Hc Hw]%andb_true_iff. apply negb_true_iff in Hc.
  rewrite strip_cons_keep by done. by rewrite IH.
Qed.

Lemma strip_all_punct text : forallb is_punct text = true → strip text = [].
Proof.
  induction text as [|ch text IH]; simpl; [done|].
  intros [Hc Hw]%andb_true_iff. rewrite strip_cons_punct by done. auto.
Qed.

(** The scan follows the stored path of the stripped text ... *)
Lemma accepts_loop_walk h t node text n :
  walk h node (strip text) = Some n → accepts_loop h t node text = n.
Proof.
  revert node. induction text as [|ch text IH]; intros node; simpl.
  - by intros [= ->].
  - destruct (is_punct ch) eqn:Hp.
    + rewrite strip_cons_punct by done. apply IH.
    + rewrite strip_cons_keep by done. simpl.
      destruct (dict_get ch (children (deref h node))); [apply IH | done].
Qed.

(** ... and ends outside the trap only if it did so all the way. *)
Lemma accepts_loop_not_trap h t node text :
  accepts_loop h t node text ≠ t →
  walk h node (strip text) = Some (accepts_loop h t node text).
Proof.
  revert node. induction text as [|ch text IH]; intros node; simpl; [done|].
  destruct (is_punct ch) eqn:Hp.
  - rewrite strip_cons_punct by done. apply IH.
  - rewrite strip_cons_keep by done. simpl.
    destruct (dict_get ch (children (deref h node))); [apply IH | done].
Qed.

Lemma accepts_true d text :
  accepts d text = true ↔
  ∃ n, walk (mem d) (_root d) (strip text) = Some n ∧ n ≠ _trap_node d
       ∧ is_final (deref (mem d) n) = true.
Proof.
  unfold accepts. split.
  - case_decide as Hne; [done|]. intros Hfin.
    eexists. split_and!; [by apply accepts_loop_not_trap | done | done].
  - intros (n & Hw & Hne & Hfin).
    rewrite (accepts_loop_walk _ _ _ _ _ Hw). by rewrite decide_False.
Qed.

Lemma extends_final h h' n :
  extends h h' → is_final (deref h n) = true → is_final (deref h' n) = true.
Proof.
  intros Hext. unfold deref at 1. destruct (h !! n) as [x|] eqn:Hn; [|done].
  simpl. intros Hfin. destruct (Hext _ _ Hn) as (x' & Hn' & _ & Hf).
  rewrite (deref_Some _ _ _ Hn'). auto.
Qed.

Lemma accepts_extends d d' text :
  extends (mem d) (mem d') → _root d' = _root d → _trap_node d' = _trap_node d →
  accepts d text = true → accepts d' text = true.
Proof.
  intros Hext Hr Ht. rewrite !accepts_true. intros (n & Hw & Hne & Hfin).
  exists n. rewrite Hr, Ht.
  split_and!; [by eapply walk_extends | done | by eapply extends_final].
Qed.

(** A scan that meets a missing transition ends in the trap, whatever
    follows. *)
Lemma accepts_loop_sink h t node pre c post :
  is_punct c = false →
  dict_get c (children (deref h (accepts_loop h t node pre))) = None →
  accepts_loop h t node (pre ++ c :: post) = t.
Proof.
  intros Hc. revert node. induction pre as [|ch pre IH]; intros node; simpl.
  - intros ->. by rewrite Hc.
  - destruct (is_punct ch); [apply IH|].
    destruct (dict_get ch (children (deref h node))); [apply IH | done].
Qed.

Lemma insert_twice A d w : wf d → insert A (insert A d w) w = insert A d w.
Proof.
  intros Hwf.
  destruct (insert_loop A (mem d) (_root d) w) as [h n] eqn:Hloop.
  assert (insert A d w = mkDFA (set_final h n) (_root d) (_trap_node d)) as ->
    by (unfold insert; by rewrite Hloop).
  destruct (insert_loop_live _ _ _ _ _ _ _ Hwf Hloop) as (Hl & Hext & Hw).
  assert (is_Some (h !! _root d)) as Hr.
  { destruct (live_node _ _ _ Hwf) as [nr Hnr].
    destruct (Hext _ _ Hnr) as (nr' & -> & _). done. }
  destruct (set_final_live _ _ _ _ Hl Hr (live_ne _ _ _ Hwf)) as (Hl' & Hext' & _).
  unfold insert. simpl.
  rewrite (insert_loop_walk A _ _ _ _ n Hl'); [|by eapply walk_extends].
  by rewrite set_final_idem.
Qed.

(** ** The claims on insertion and matching *)

(** C1, as amended: for every word [w] that has no punctuation symbol,
    after [insert(w)] on an automaton, [accepts(w)] is true. *)
Theorem insert_then_accepts (A : allocator) (ws : list (list N)) (w : list N) :
  forallb (λ ch, negb (is_punct ch)) w = true →
  accepts (insert A (build A ws) w) w = true.
Proof.
  intros Hw. apply accepts_true. rewrite (strip_no_punct _ Hw).
  destruct (insert_spec A (build A ws) w (wf_build A ws))
    as (_ & _ & -> & -> & n & Hn).
  by exists n.
Qed.

Lemma insert_then_accepts_witness :
  accepts (insert bump (build bump [lit "car"]) (lit "cat")) (lit "cat") = true.
Proof.
  apply (insert_then_accepts bump [lit "car"] (lit "cat")). vm_compute. reflexivity.
Defined.

(** C1, as stated, fails: a word made of a punctuation symbol is stored by
    [insert] but its symbol is skipped by [accepts]. *)
Lemma insert_then_accepts_punct_counterexample :
  accepts (insert first_fit (build first_fit []) (lit "!")) (lit "!") = false.
Proof. vm_compute. reflexivity. Qed.

(** C3: when the scan of [text = pre ++ c :: post] stands, after [pre], at
    a state with no transition for the non-punctuation symbol [c], it ends
    in the trap and [accepts(text)] is false, for every continuation
    [post]. *)
Theorem accepts_sink_absorbing (d : DFA) (pre post : list N) (c : N) :
  is_punct c = false →
  dict_get c (children (deref (mem d)
    (accepts_loop (mem d) (_trap_node d) (_root d) pre))) = None →
  accepts_loop (mem d) (_trap_node d) (_root d) (pre ++ c :: post) = _trap_node d
  ∧ accepts d (pre ++ c :: post) = false.
Proof.
  intros Hc Hg. pose proof (accepts_loop_sink _ _ _ _ _ post Hc Hg) as Hs.
  split; [done|]. unfold accepts. rewrite Hs. by rewrite decide_True.
Qed.

Lemma accepts_sink_absorbing_witness :
  let d := build first_fit [lit "cat"] in
  accepts_loop (mem d) (_trap_node d) (_root d) (lit "c,a" ++ 114%N :: lit "t.") = _trap_node d
  ∧ accepts d (lit "c,a" ++ 114%N :: lit "t.") = false.
Proof.
  apply (accepts_sink_absorbing (build first_fit [lit "cat"]) (lit "c,a") (lit "t.") 114%N);
    vm_compute; reflexivity.
Defined.

(** C4: for every inserted word [w] and every text whose non-punctuation
    symbols, in order, are [w], [accepts(text)] is true. *)
Theorem accepts_ignores_punctuation (A : allocator) (ws1 ws2 : list (list N))
    (w text : list N) :
  strip text = w →
  accepts (build A (ws1 ++ w :: ws2)) text = true.
Proof.
  intros Hs. unfold build. rewrite foldl_app. simpl.
  fold (build A ws1).
  pose proof (wf_build A ws1) as Hwf.
  destruct (insert_spec A _ w Hwf) as (Hwf' & _ & Hr & Ht & n & Hn).
  destruct (foldl_insert_fields A _ ws2 Hwf') as (Hext & Hr' & Ht').
  eapply accepts_extends; [done..|].
  apply accepts_true. rewrite Hs, Hr, Ht. by exists n.
Qed.

Lemma accepts_ignores_punctuation_witness :
  accepts (build first_fit ([lit "car"] ++ lit "cat" :: [lit "dog"])) (lit "c,a.t") = true.
Proof.
  apply (accepts_ignores_punctuation first_fit [lit "car"] [lit "dog"] (lit "cat") (lit "c,a.t")).
  vm_compute. reflexivity.
Defined.

(** C5: inserting [w] a second time changes nothing: the store, and so
    the tree, its node count and the answers of [accepts], are those after
    the first insertion. *)
Theorem insert_idempotent (A : allocator) (ws : list (list N)) (w : list N) :
  let d1 := insert A (build A ws) w in
  let d2 := insert A d1 w in
  d2 = d1 ∧ size (mem d2) = size (mem d1)
  ∧ (∀ n, walk (mem d1) (_root d1) w = Some n → is_final (deref (mem d2) n) = true)
  ∧ ∀ text, accepts d2 text = accepts d1 text.
Proof.
  intros d1 d2.
  assert (d2 = d1) as Heq by apply insert_twice, wf_build.
  rewrite Heq. split_and!; [done | done | | done].
  intros n Hn. subst d1.
  destruct (insert_spec A (build A ws) w (wf_build A ws))
    as (_ & _ & Hr & _ & n' & Hw' & _ & Hfin).
  rewrite Hr in Hn. congruence.
Qed.

(** C6: [accepts] of the empty text, and of a text of punctuation only, is
    the root's flag; on a new automaton both are false. *)
Theorem accepts_punctuation_only (A : allocator) (ws : list (list N)) (text : list N) :
  forallb is_punct text = true →
  let d := build A ws in
  accepts d [] = is_final (deref (mem d) (_root d))
  ∧ accepts d text = is_final (deref (mem d) (_root d))
  ∧ accepts (init A) [] = false ∧ accepts (init A) text = false.
Proof.
  intros Hp d.
  assert (∀ d', wf d' → accepts d' text = is_final (deref (mem d') (_root d'))) as Hany.
  { intros d' Hwf. unfold accepts.
    rewrite (accepts_loop_walk _ _ _ text (_root d'))
      by by rewrite (strip_all_punct _ Hp).
    rewrite decide_False; [done | apply (live_ne _ _ _ Hwf)]. }
  assert (∀ d', wf d' → accepts d' [] = is_final (deref (mem d') (_root d'))) as Hnil.
  { intros d' Hwf. unfold accepts. simpl.
    rewrite decide_False; [done | apply (live_ne _ _ _ Hwf)]. }
  assert (is_final (deref (mem (init A)) (_root (init A))) = false) as Hinit.
  { destruct (live_node _ _ _ (wf_init A)) as [n Hn]. pose proof Hn as Hn'.
    unfold init in Hn'. simpl in Hn'. rewrite (deref_Some _ _ _ Hn).
    rewrite !lookup_insert in Hn'. repeat case_decide; naive_solver. }
  split_and!.
  - apply Hnil, wf_build.
  - apply Hany, wf_build.
  - rewrite Hnil by apply wf_init. done.
  - rewrite Hany by apply wf_init. done.
Qed.

Lemma accepts_punctuation_only_witness :
  let d := build first_fit [lit ""; lit "a"] in
  accepts d [] = is_final (deref (mem d) (_root d))
  ∧ accepts d (lit ".,;!") = is_final (deref (mem d) (_root d))
  ∧ accepts (init first_fit) [] = false ∧ accepts (init first_fit) (lit ".,;!") = false.
Proof.
  apply (accepts_punctuation_only first_fit [lit ""; lit "a"] (lit ".,;!")).
  vm_compute. reflexivity.
Defined.

(** C10: [insert] never turns an accepted text into a rejected one. *)
Theorem accepts_monotone (A : allocator) (ws : list (list N)) (w text : list N) :
  accepts (build A ws) text = true →
  accepts (insert A (build A ws) w) text = true.
Proof.
  destruct (insert_spec A (build A ws) w (wf_build A ws)) as (_ & Hext & Hr & Ht & _).
  by apply accepts_extends.
Qed.

Lemma accepts_monotone_witness :
  accepts (insert bump (build bump [lit "cat"]) (lit "ca")) (lit "c.at") = true.
Proof.
  apply (accepts_monotone bump [lit "cat"] (lit "ca") (lit "c.at")).
  vm_compute. reflexivity.
Defined.

(** ** Identifiers *)

Lemma numbering_keys order : (numbering order).*1 = order.
Proof.
  unfold numbering. rewrite fmap_imap. simpl.
  induction order as [|a order IH] using rev_ind; [done|].
  by rewrite imap_app, IH.
Qed.

Lemma numbering_length order : length (numbering order) = length order.
Proof. apply length_imap. Qed.

Lemma numbering_snoc order a :
  numbering (order ++ [a]) = numbering order ++ [(a, qname (length order))].
Proof. unfold numbering. rewrite imap_app. simpl. by rewrite Nat.add_0_r. Qed.

Lemma numbering_prefix order order' :
  order `prefix_of` order' → numbering order `prefix_of` numbering order'.
Proof. intros [k ->]. unfold numbering. rewrite imap_app. by apply prefix_app_r. Qed.

Lemma dict_get_numbering_None order a : dict_get a (numbering order) = None ↔ a ∉ order.
Proof. by rewrite dict_get_None, numbering_keys. Qed.

Lemma dict_get_numbering_Some order a :
  a ∈ order → dict_get a (numbering order) = Some (id_of order a).
Proof.
  intros Ha. unfold id_of.
  destruct (dict_get a (numbering order)) eqn:Hg; [done|].
  by apply dict_get_numbering_None in Hg.
Qed.

Lemma id_of_prefix order order' a :
  a ∈ order → order `prefix_of` order' → id_of order' a = id_of order a.
Proof.
  intros Ha Hp. unfold id_of at 1.
  by rewrite (dict_get_prefix _ _ _ _ (numbering_prefix _ _ Hp)
                (dict_get_numbering_Some _ _ Ha)).
Qed.

Lemma id_of_snoc order a : a ∉ order → id_of (order ++ [a]) a = qname (length order).
Proof.
  intros Ha. unfold id_of. rewrite numbering_snoc.
  rewrite dict_get_app_r by by apply dict_get_numbering_None.
  simpl. by rewrite decide_True.
Qed.

(** [get_id] on the numbering of [order]: the first request for a node
    appends it with the next identifier. *)
Lemma get_id_numbering order a :
  get_id (numbering order) a =
    (numbering (discover (order, []) a).1, id_of (discover (order, []) a).1 a).
Proof.
  unfold get_id, discover. simpl. case_decide as Ha.
  - by rewrite (dict_get_numbering_Some _ _ Ha).
  - simpl. pose proof Ha as Hg. apply dict_get_numbering_None in Hg. rewrite Hg.
    rewrite dict_set_new by done.
    by rewrite numbering_length, numbering_snoc, id_of_snoc.
Qed.

(** ** Discovery *)

Lemma foldl_discover_facts cs order q :
  ∃ new, foldl discover (order, q) cs = (order ++ new, q ++ new)
         ∧ (∀ c, c ∈ new → c ∈ cs ∧ c ∉ order)
         ∧ (∀ c, c ∈ cs → c ∈ order ++ new)
         ∧ (NoDup order → NoDup (order ++ new)).
Proof.
  revert order q. induction cs as [|c cs IH]; intros order q; simpl.
  - exists []. rewrite !app_nil_r. split_and!; [done | | | done].
    + by intros c ?%elem_of_nil.
    + by intros c ?%elem_of_nil.
  - unfold discover at 2. simpl. case_decide as Hc.
    + destruct (IH order q) as (new & -> & Hnew & Hall & Hnd).
      exists new. split_and!; [done | | | done].
      * intros x Hx. destruct (Hnew x Hx). split; [by right | done].
      * intros x [->|Hx]%elem_of_cons; [apply elem_of_app; by left | auto].
    + destruct (IH (order ++ [c]) (q ++ [c])) as (new & -> & Hnew & Hall & Hnd).
      exists (c :: new). rewrite <- !app_assoc. simpl.
      split_and!; [done | | |].
      * intros x [->|Hx]%elem_of_cons; [split; [left | done]|].
        destruct (Hnew x Hx) as [? Hni]. split; [by right|].
        intros ?. apply Hni, elem_of_app. by left.
      * intros x [->|Hx]%elem_of_cons.
        -- apply elem_of_app. right. left.
        -- specialize (Hall x Hx). by rewrite <- app_assoc in Hall.
      * intros Ho. rewrite <- app_assoc in Hnd. apply Hnd.
        apply NoDup_app. split_and!; [done | | apply NoDup_singleton].
        intros x Hx ->%list_elem_of_singleton. done.
Qed.

Lemma discover_known order q a : a ∈ order → discover (order, q) a = (order, q).
Proof. intros Ha. unfold discover. simpl. by rewrite decide_True. Qed.

Lemma foldl_discover_prefix cs order q :
  order `prefix_of` (foldl discover (order, q) cs).1.
Proof.
  destruct (foldl_discover_facts cs order q) as (new & -> & _). by apply prefix_app_r.
Qed.

Lemma visit_child_discovered nid st order e :
  discovered st order →
  discovered (visit_child nid st e) (discover (order, queue st) e.2).1
  ∧ queue (visit_child nid st e) = (discover (order, queue st) e.2).2
  ∧ lines (visit_child nid st e) =
      lines st ++ [edge_line nid (id_of (discover (order, queue st) e.2).1 e.2)
                     (escape e.1)].
Proof.
  destruct e as [ch c], st as [ids ls q sn]. intros [Hids Hseen]. simpl in *.
  subst ids. unfold visit_child. simpl. rewrite get_id_numbering.
  unfold discover. simpl. destruct (decide (c ∈ order)) as [Hc|Hc].
  - rewrite decide_True by by apply Hseen. simpl. done.
  - rewrite decide_False by by rewrite Hseen. simpl.
    split_and!; [split; [done|] | done | done].
    intros a. simpl. rewrite elem_of_union, elem_of_singleton, elem_of_app,
      list_elem_of_singleton, Hseen. tauto.
Qed.

Lemma foldl_visit_child nid es st order :
  discovered st order →
  discovered (foldl (visit_child nid) st es) (foldl discover (order, queue st) es.*2).1
  ∧ queue (foldl (visit_child nid) st es) = (foldl discover (order, queue st) es.*2).2
  ∧ lines (foldl (visit_child nid) st es) =
      lines st ++ ((λ e, edge_line nid
                      (id_of (foldl discover (order, queue st) es.*2).1 e.2)
                      (escape e.1)) <$> es).
Proof.
  revert st order. induction es as [|e es IH]; intros st order Hd; simpl.
  - by rewrite app_nil_r.
  - destruct (visit_child_discovered nid st order e Hd) as (Hd1 & Hq1 & Hl1).
    destruct (IH _ _ Hd1) as (Hd' & Hq' & Hl').
    rewrite Hq1, <- surjective_pairing in Hd', Hq', Hl'.
    split_and!; [done | done |].
    rewrite Hl', Hl1, <- app_assoc. simpl. do 3 f_equal.
    destruct (discover (order, queue st) e.2) as [order1 q1] eqn:Hdisc. simpl.
    symmetry. apply id_of_prefix; [|apply foldl_discover_prefix].
    unfold discover in Hdisc. simpl in Hdisc. case_decide; simplify_eq; [done|].
    apply elem_of_app. right. left.
Qed.

Lemma expand_discovered h node q st order :
  discovered st order → node ∈ order →
  discovered (expand h node q st)
    (foldl discover (order, q) (children (deref h node)).*2).1
  ∧ queue (expand h node q st) =
      (foldl discover (order, q) (children (deref h node)).*2).2
  ∧ lines (expand h node q st) =
      lines st ++ block h (foldl discover (order, q) (children (deref h node)).*2).1 node.
Proof.
  intros [Hids Hseen] Hin. unfold expand. rewrite Hids, get_id_numbering.
  rewrite (discover_known order [] node Hin). simpl.
  match goal with |- context [foldl _ ?s _] => set (st0 := s) end.
  assert (discovered st0 order) as Hd0 by done.
  destruct (foldl_visit_child (id_of order node) (children (deref h node)) st0 order Hd0)
    as (Hd' & Hq' & Hl').
  simpl in Hd', Hq', Hl'.
  split_and!; [done | done |]. rewrite Hl'. unfold block.
  rewrite (id_of_prefix order _ node Hin (foldl_discover_prefix _ _ _)).
  destruct (is_final (deref h node)); simpl; by rewrite <- ?app_assoc.
Qed.

Lemma block_prefix h order order' a :
  a ∈ order → (∀ e, e ∈ children (deref h a) → e.2 ∈ order) →
  order `prefix_of` order' → block h order' a = block h order a.
Proof.
  intros Ha Hch Hp. unfold block. rewrite (id_of_prefix _ _ _ Ha Hp). f_equal.
  apply list_fmap_ext. intros i e He. f_equal.
  apply id_of_prefix; [|done]. apply Hch. by eapply list_elem_of_lookup_2.
Qed.

Lemma bind_ext_elem {X Y} (f g : X → list Y) (l : list X) :
  (∀ x, x ∈ l → f x = g x) → l ≫= f = l ≫= g.
Proof.
  induction l as [|x l IH]; intros Hfg; simpl; [done|].
  rewrite Hfg by left. f_equal. apply IH. intros y Hy. apply Hfg. by right.
Qed.

(** The loop of [to_dot] and the discovery order run in step: the loop
    ends when the order is complete, having assigned the identifiers of
    its numbering and emitted one block per node. *)
Lemma bfs_loop_discovered h fuel st order done L0 :
  discovered st order → order = done ++ queue st →
  (∀ a e, a ∈ done → e ∈ children (deref h a) → e.2 ∈ order) →
  lines st = L0 ++ (done ≫= block h order) →
  match bfs_order_loop h fuel order (queue st) with
  | Some order' =>
      ∃ st', bfs_loop h fuel st = Some st' ∧ discovered st' order'
             ∧ queue st' = [] ∧ lines st' = L0 ++ (order' ≫= block h order')
             ∧ order `prefix_of` order'
             ∧ (∀ a e, a ∈ order' → e ∈ children (deref h a) → e.2 ∈ order')
  | None => bfs_loop h fuel st = None
  end.
Proof.
  revert st order done. induction fuel as [|fuel IH]; intros st order done Hd Ho Hch Hl.
  - simpl. destruct (queue st) as [|node q] eqn:Hq; [|done].
    exists st. rewrite app_nil_r in Ho. subst done.
    split_and!; [done | done | done | done | done | done].
  - simpl. destruct (queue st) as [|node q] eqn:Hq.
    { exists st. rewrite app_nil_r in Ho. subst done.
      split_and!; [done | done | done | done | done | done]. }
    assert (node ∈ order) as Hin.
    { subst order. apply elem_of_app. right. left. }
    destruct (expand_discovered h node q st order Hd Hin) as (Hd' & Hq' & Hl').
    destruct (foldl_discover_facts (children (deref h node)).*2 order q)
      as (new & Hf & Hnew & Hall & _).
    rewrite Hf in Hd', Hq', Hl' |- *. simpl in Hd', Hq', Hl'.
    assert (order `prefix_of` order ++ new) as Hp by by apply prefix_app_r.
    specialize (IH (expand h node q st) (order ++ new) (done ++ [node]) Hd').
    rewrite Hq' in IH. 
    assert (∀ a e, a ∈ done ++ [node] → e ∈ children (deref h a) → e.2 ∈ order ++ new)
      as Hch'.
    { intros a e [Ha| ->%list_elem_of_singleton]%elem_of_app He.
      - apply elem_of_app. left. eauto.
      - apply Hall. apply list_elem_of_fmap. eauto. }
    lapply IH; [clear IH; intros IH | subst order; by rewrite <- !app_assoc].
    specialize (IH Hch').
    lapply IH; [clear IH; intros IH|].
    + destruct (bfs_order_loop h fuel (order ++ new) (q ++ new)) as [order'|]; [|done].
      destruct IH as (st' & ? & ? & ? & ? & ? & ?). exists st'.
      split_and!; [done | done | done | done | by etrans | done].
    + rewrite Hl', Hl, bind_app, <- app_assoc. simpl. rewrite app_nil_r. f_equal.
      f_equal. apply bind_ext_elem. intros a Ha. symmetry.
      apply block_prefix; [subst order; apply elem_of_app; by left | eauto | done].
Qed.

(** ** Identifiers are distinct *)




Lemma dict_get_numbering_lookup order a s :
  dict_get a (numbering order) = Some s → ∃ i, order !! i = Some a ∧ s = qname i.
Proof.
  induction order as [|x order IH] using rev_ind; [done|].
  rewrite numbering_snoc.
  destruct (dict_get a (numbering order)) as [s'|] eqn:Hg.
  - rewrite (dict_get_app_l _ _ _ _ Hg). intros [= <-].
    destruct (IH eq_refl) as (i & Hi & ->). exists i.
    split; [|done]. by apply lookup_app_l_Some.
  - rewrite dict_get_app_r by done. simpl. case_decide; [|done].
    intros [= <-]. subst x. exists (length order).
    split; [|done]. by rewrite lookup_app_r, Nat.sub_diag.
Qed.



(** ** The discovery order of a closed store *)

Lemma children_deref_closed h a e :
  closed h → e ∈ children (deref h a) → is_Some (h !! e.2).
Proof.
  intros Hcl. unfold deref. destruct (h !! a) as [n|] eqn:Ha; simpl.
  - apply (Hcl _ _ _ Ha).
  - by intros ?%elem_of_nil.
Qed.

Lemma children_deref_no_edge h t a e :
  no_edge_to h t → e ∈ children (deref h a) → e.2 ≠ t.
Proof.
  intros Hno. unfold deref. destruct (h !! a) as [n|] eqn:Ha; simpl.
  - apply (Hno _ _ _ Ha).
  - by intros ?%elem_of_nil.
Qed.

Lemma length_le_size (h : gmap nat Node) (l : list nat) :
  NoDup l → (∀ a, a ∈ l → is_Some (h !! a)) → length l ≤ size h.
Proof.
  intros Hnd Hl. rewrite <- size_dom, <- (size_list_to_set (C := gset nat) l Hnd).
  apply subseteq_size. intros a Ha%elem_of_list_to_set. by apply elem_of_dom, Hl.
Qed.

Lemma bfs_order_loop_total h fuel order done q :
  closed h → order = done ++ q → NoDup order →
  (∀ a, a ∈ order → is_Some (h !! a)) →
  length q + size h ≤ fuel + length order →
  is_Some (bfs_order_loop h fuel order q).
Proof.
  intros Hcl. revert order done q.
  induction fuel as [|fuel IH]; intros order done q Ho Hnd Hal Hlen.
  - destruct q as [|node q]; [done|]. simpl in Hlen.
    pose proof (length_le_size h order Hnd Hal). lia.
  - destruct q as [|node q]; [done|]. simpl.
    destruct (foldl_discover_facts (children (deref h node)).*2 order q)
      as (new & -> & Hnew & _ & Hnd').
    apply (IH _ (done ++ [node])).
    + subst order. by rewrite <- !app_assoc.
    + auto.
    + intros a [Ha|Ha]%elem_of_app; [auto|].
      destruct (Hnew a Ha) as [(e & -> & He)%list_elem_of_fmap _].
      by eapply children_deref_closed.
    + rewrite !length_app. simpl in Hlen. lia.
Qed.

Lemma bfs_order_loop_Forall h (P : nat → Prop) fuel order q order' :
  (∀ a e, P a → e ∈ children (deref h a) → P e.2) → Forall P order →
  (∀ a, a ∈ q → a ∈ order) →
  bfs_order_loop h fuel order q = Some order' → Forall P order'.
Proof.
  intros HP. revert order q. induction fuel as [|fuel IH]; intros order q Ho Hq.
  - destruct q; simpl; [by intros [= <-] | done].
  - destruct q as [|node q]; simpl; [by intros [= <-]|].
    destruct (foldl_discover_facts (children (deref h node)).*2 order q)
      as (new & -> & Hnew & _ & _).
    assert (P node) as Hnode.
    { apply (proj1 (Forall_forall _ _) Ho). apply Hq. left. }
    apply IH.
    + apply Forall_app. split; [done|].
      apply Forall_forall. intros a Ha.
      destruct (Hnew a Ha) as [(e & -> & He)%list_elem_of_fmap _]. eauto.
    + intros a [Ha|Ha]%elem_of_app; apply elem_of_app; [left | by right].
      apply Hq. by right.
Qed.

Lemma dict_get_unique {V} (k : N) (v : V) cs :
  NoDup cs.*1 → (k, v) ∈ cs → dict_get k cs = Some v.
Proof.
  induction cs as [|[k' v'] cs IH]; simpl; [by intros _ ?%elem_of_nil|].
  intros [Hk Hnd]%NoDup_cons [[= -> ->]|Hin]%elem_of_cons.
  - by rewrite decide_True.
  - rewrite decide_False; [auto|]. intros ->. apply Hk.
    apply list_elem_of_fmap. by exists (k', v).
Qed.

Lemma walk_snoc_child h a w b e :
  unique_keys h → walk h a w = Some b → e ∈ children (deref h b) →
  walk h a (w ++ [e.1]) = Some e.2.
Proof.
  intros Hk Hw He. rewrite walk_app, Hw. simpl.
  unfold deref in He |- *. destruct (h !! b) as [n|] eqn:Hb; simpl in *.
  - destruct e as [k v]. simpl. by rewrite (dict_get_unique k v _ (Hk _ _ Hb) He).
  - by apply elem_of_nil in He.
Qed.

Lemma bfs_order_loop_NoDup h fuel order q order' :
  NoDup order → bfs_order_loop h fuel order q = Some order' → NoDup order'.
Proof.
  revert order q. induction fuel as [|fuel IH]; intros order q Ho.
  - destruct q; simpl; [by intros [= <-] | done].
  - destruct q as [|node q]; simpl; [by intros [= <-]|].
    destruct (foldl_discover_facts (children (deref h node)).*2 order q)
      as (new & -> & _ & _ & Hnd).
    apply IH. auto.
Qed.

Lemma walk_closed_under h (order : list nat) w a b :
  (∀ x e, x ∈ order → e ∈ children (deref h x) → e.2 ∈ order) →
  a ∈ order → walk h a w = Some b → b ∈ order.
Proof.
  intros Hcl. revert a. induction w as [|ch w IH]; intros a Ha; simpl.
  - by intros [= <-].
  - destruct (dict_get ch (children (deref h a))) as [c|] eqn:Hg; [|done].
    apply IH. apply (Hcl a (ch, c) Ha). by apply dict_get_elem.
Qed.

Lemma bfs_init_discovered d :
  discovered (bfs_init d) [_root d] ∧ queue (bfs_init d) = [_root d]
  ∧ lines (bfs_init d) = preamble ++ [start_node_line; start_edge_line (qname 0)].
Proof.
  unfold bfs_init. change (@nil (nat * list N)) with (numbering []).
  rewrite get_id_numbering. unfold discover. simpl.
  pose proof (id_of_snoc [] (_root d) (not_elem_of_nil _)) as Hid.
  simpl in Hid. rewrite Hid.
  split_and!; [split; [done|] | done | done].
  intros a. simpl. by rewrite elem_of_singleton, list_elem_of_singleton.
Qed.

(** The traversal of a built automaton ends, and its result is described
    by the discovery order. *)
Lemma bfs_run_wf d :
  wf d →
  ∃ st order,
    bfs_run d = Some st ∧ bfs_order d = Some order ∧ discovered st order
    ∧ lines st = body_lines (mem d) order
    ∧ [_root d] `prefix_of` order ∧ NoDup order
    ∧ (∀ a, a ∈ order → is_Some (mem d !! a) ∧ a ≠ _trap_node d)
    ∧ (∀ a e, a ∈ order → e ∈ children (deref (mem d) a) → e.2 ∈ order)
    ∧ (∀ a, a ∈ order → ∃ w, walk (mem d) (_root d) w = Some a).
Proof.
  intros [Hcl Hr Hne Ht Hno Hk].
  destruct (bfs_init_discovered d) as (Hd & Hq & Hl).
  assert (NoDup [_root d]) as Hnd by apply NoDup_singleton.
  assert (is_Some (bfs_order d)) as [order Ho].
  { apply (bfs_order_loop_total _ _ _ []); [done | done | done | |].
    - by intros a ->%list_elem_of_singleton.
    - simpl. lia. }
  pose proof (bfs_loop_discovered (mem d) (size (mem d)) (bfs_init d) [_root d] []
    (preamble ++ [start_node_line; start_edge_line (qname 0)]) Hd) as Hsim.
  rewrite Hq in Hsim. unfold bfs_order in Ho. rewrite Ho in Hsim.
  destruct Hsim as (st & Hrun & Hd' & _ & Hl' & Hp & Hch).
  { done. } { by intros a e ?%elem_of_nil. } { simpl. by rewrite app_nil_r. }
  exists st, order. split_and!; try done.
  - by eapply bfs_order_loop_NoDup.
  - intros a Ha.
    assert (Forall (λ a, is_Some (mem d !! a) ∧ a ≠ _trap_node d) order) as HF.
    { eapply (bfs_order_loop_Forall _ _ _ _ _ _ _ _ _ Ho). }
    by apply (proj1 (Forall_forall _ _) HF).
  - intros a Ha.
    assert (Forall (λ a, ∃ w, walk (mem d) (_root d) w = Some a) order) as HF.
    { eapply (bfs_order_loop_Forall _ _ _ _ _ _ _ _ _ Ho). }
    by apply (proj1 (Forall_forall _ _) HF).
  Unshelve.
  + intros x e _ He.
    split; [by eapply children_deref_closed | by eapply children_deref_no_edge].
  + by apply Forall_singleton.
  + done.
  + intros x e [w Hw] He. exists (w ++ [e.1]). by apply (walk_snoc_child _ _ _ x).
  + apply Forall_singleton. by exists [].
  + done.
Qed.

(** ** Rounds of the traversal *)

Lemma bfs_round_done h st : queue st = [] → bfs_round h st = st.
Proof. unfold bfs_round. by intros ->. Qed.

Lemma bfs_rounds_done h k st : queue st = [] → Nat.iter k (bfs_round h) st = st.
Proof.
  intros Hq. induction k as [|k IH]; simpl; [done|]. by rewrite IH, bfs_round_done.
Qed.

Lemma bfs_loop_rounds h fuel st st' :
  bfs_loop h fuel st = Some st' → st' = Nat.iter fuel (bfs_round h) st ∧ queue st' = [].
Proof.
  revert st. induction fuel as [|fuel IH]; intros st; simpl.
  - destruct (queue st) eqn:Hq; [|done]. by intros [= <-].
  - destruct (queue st) as [|node q] eqn:Hq.
    + intros [= <-]. split; [|done].
      by rewrite (bfs_rounds_done h fuel st Hq), bfs_round_done.
    + intros Hloop. destruct (IH _ Hloop) as [-> Hq']. split; [|done].
      assert (bfs_round h st = expand h node q st) as <-
        by (unfold bfs_round; by rewrite Hq).
      symmetry. apply (Nat.iter_succ_r fuel (bfs_round h) st).
Qed.

Lemma bfs_round_discovered h st order :
  discovered st order → (∀ a, a ∈ queue st → a ∈ order) →
  ∃ order', discovered (bfs_round h st) order'
            ∧ ∀ a, a ∈ queue (bfs_round h st) → a ∈ order'.
Proof.
  intros Hd Hq. unfold bfs_round. destruct (queue st) as [|node q] eqn:Hqs.
  - exists order. by rewrite Hqs.
  - assert (node ∈ order) as Hin by (apply Hq; left).
    destruct (expand_discovered h node q st order Hd Hin) as (Hd' & Hq' & _).
    destruct (foldl_discover_facts (children (deref h node)).*2 order q)
      as (new & Hf & _).
    rewrite Hf in Hd', Hq'. simpl in Hd', Hq'.
    exists (order ++ new). split; [done|]. rewrite Hq'.
    intros a [Ha|Ha]%elem_of_app; apply elem_of_app; [left | by right].
    apply Hq. by right.
Qed.

Lemma bfs_rounds_discovered d k :
  ∃ order, discovered (bfs_rounds d k) order
           ∧ ∀ a, a ∈ queue (bfs_rounds d k) → a ∈ order.
Proof.
  unfold bfs_rounds. induction k as [|k (order & Hd & Hq)].
  - destruct (bfs_init_discovered d) as (Hd & Hq & _).
    exists [_root d]. split; [exact Hd|]. intros a Ha.
    change (a ∈ queue (bfs_init d)) in Ha. by rewrite Hq in Ha.
  - exact (bfs_round_discovered _ _ order Hd Hq).
Qed.

Lemma walk_avoids h t w a b : no_edge_to h t → a ≠ t → walk h a w = Some b → b ≠ t.
Proof.
  intros Hno. revert a. induction w as [|ch w IH]; intros a Ha; simpl.
  - by intros [= <-].
  - destruct (dict_get ch (children (deref h a))) as [c|] eqn:Hg; [|done].
    apply IH. apply (children_deref_no_edge h t a (ch, c) Hno). by apply dict_get_elem.
Qed.

(** ** The lines of the export, by the identifiers of the registry *)

(** The identifier of a node of the discovery order is [Q] and its rank. *)
Lemma numbering_rank order i a :
  NoDup order → order !! i = Some a →
  dict_get a (numbering order) = Some (lit "Q" ++ str_of_nat i).
Proof.
  intros Hnd Hi.
  assert (a ∈ order) as Ha by by eapply list_elem_of_lookup_2.
  pose proof (dict_get_numbering_Some _ _ Ha) as Hg.
  destruct (dict_get_numbering_lookup _ _ _ Hg) as (j & Hj & Hid).
  by rewrite Hg, Hid, (NoDup_lookup _ _ _ _ Hnd Hi Hj).
Qed.

(** The lines that the traversal leaves, written with the identifiers
    that [node_ids] holds. *)
Lemma lines_by_node_ids h st order :
  node_ids st = numbering order → lines st = body_lines h order →
  lines st =
    preamble ++ [start_node_line; start_edge_line (lit "Q0")]
    ++ (order ≫= λ a,
          (if is_final (deref h a)
           then [accept_line (default [] (dict_get a (node_ids st)))] else [])
          ++ ((λ e, edge_line (default [] (dict_get a (node_ids st)))
                      (default [] (dict_get e.2 (node_ids st))) (escape e.1))
                <$> children (deref h a))).
Proof.
  intros Hids Hl. assert (qname 0 = lit "Q0") as Hq by by vm_compute.
  rewrite Hl, Hids. unfold body_lines. rewrite Hq. reflexivity.
Qed.

(** ** The claims on the identifiers and on the trap *)

(** C2: the export ends; the identifiers it assigns are [Q0], [Q1], ...
    along the breadth-first discovery order, the root having [Q0]; after
    any number of rounds of its loop a node has an identifier exactly when
    it has been discovered, so that every node waiting in the queue was
    numbered before it is taken out; and the text of the export is made of
    lines that name each node, in that order, by that identifier: the
    node of rank [i] in the discovery order is printed as [Q] and [i]. *)
Theorem identifiers_follow_discovery (A : allocator) (ws : list (list N)) :
  let d := build A ws in
  ∃ st order,
    bfs_run d = Some st ∧ st = bfs_rounds d (size (mem d))
    ∧ bfs_order d = Some order
    ∧ node_ids st = imap (λ i a, (a, lit "Q" ++ str_of_nat i)) order
    ∧ dict_get (_root d) (node_ids st) = Some (lit "Q0")
    ∧ (∀ k a,
        (a ∈ seen (bfs_rounds d k) ↔ is_Some (dict_get a (node_ids (bfs_rounds d k))))
        ∧ (a ∈ queue (bfs_rounds d k) →
           is_Some (dict_get a (node_ids (bfs_rounds d k)))))
    ∧ to_dot d = Some (join newline (lines st ++ [lit "}"]))
    ∧ lines st =
        preamble ++ [start_node_line; start_edge_line (lit "Q0")]
        ++ (order ≫= λ a,
              (if is_final (deref (mem d) a)
               then [accept_line (default [] (dict_get a (node_ids st)))] else [])
              ++ ((λ e, edge_line (default [] (dict_get a (node_ids st)))
                          (default [] (dict_get e.2 (node_ids st))) (escape e.1))
                    <$> children (deref (mem d) a)))
    ∧ (∀ i a, order !! i = Some a →
         dict_get a (node_ids st) = Some (lit "Q" ++ str_of_nat i))
    ∧ (∀ a e, a ∈ order → e ∈ children (deref (mem d) a) → e.2 ∈ order).
Proof.
  intros d.
  destruct (bfs_run_wf d (wf_build A ws))
    as (st & order & Hrun & Ho & [Hids Hseen0] & Hl & Hp & Hnd & _ & Hch & _).
  exists st, order. split_and!; [done | | done | done | | | | | | done].
  - by destruct (bfs_loop_rounds _ _ _ _ Hrun) as [-> _].
  - rewrite Hids. destruct Hp as [k ->].
    pose proof (numbering_prefix [_root d] ([_root d] ++ k)) as Hnp.
    eapply dict_get_prefix; [apply Hnp; by apply prefix_app_r|].
    rewrite (dict_get_numbering_Some [_root d]) by left.
    pose proof (id_of_snoc [] (_root d) (not_elem_of_nil _)) as Hid.
    simpl in Hid. rewrite Hid. by vm_compute.
  - intros k a. destruct (bfs_rounds_discovered d k) as (o & [Hids' Hseen] & Hq).
    rewrite Hids', Hseen.
    assert (a ∈ o ↔ is_Some (dict_get a (numbering o))) as Hiff.
    { split.
      - intros Ha. rewrite (dict_get_numbering_Some _ _ Ha). done.
      - intros [s Hs]. destruct (decide (a ∈ o)) as [|Hn]; [done|].
        apply dict_get_numbering_None in Hn. congruence. }
    split; [done|]. intros Ha. by apply Hiff, Hq.
  - unfold to_dot. by rewrite Hrun.
  - by apply lines_by_node_ids.
  - intros i a Hi. rewrite Hids. by apply numbering_rank.
Qed.

(** C7: the trap is the object made by the constructor; after any
    insertions it still has no transition and is not accepting, no stored
    transition leads to it, no path from the root reaches it, and the
    export neither visits it nor gives it an identifier; the text of the
    export is made of the fixed opening lines and of lines for the nodes
    of the discovery order, in which the trap does not occur: every line
    after the opening ones is the accepting-style line of a node other
    than the trap, or an edge between two nodes other than the trap. *)
Theorem trap_untouched (A : allocator) (ws : list (list N)) :
  let d := build A ws in
  _trap_node d = _trap_node (init A)
  ∧ mem d !! _trap_node d = Some (mkNode [] false)
  ∧ _root d ≠ _trap_node d
  ∧ no_edge_to (mem d) (_trap_node d)
  ∧ (∀ w, walk (mem d) (_root d) w ≠ Some (_trap_node d))
  ∧ ∃ st order,
      bfs_run d = Some st
      ∧ dict_get (_trap_node d) (node_ids st) = None
      ∧ (_trap_node d ∉ seen st)
      ∧ bfs_order d = Some order ∧ (_trap_node d ∉ order)
      ∧ to_dot d = Some (join newline (lines st ++ [lit "}"]))
      ∧ lines st =
          preamble ++ [start_node_line; start_edge_line (lit "Q0")]
          ++ (order ≫= λ a,
                (if is_final (deref (mem d) a)
                 then [accept_line (default [] (dict_get a (node_ids st)))] else [])
                ++ ((λ e, edge_line (default [] (dict_get a (node_ids st)))
                            (default [] (dict_get e.2 (node_ids st))) (escape e.1))
                      <$> children (deref (mem d) a)))
      ∧ (∀ l, l ∈ lines st ++ [lit "}"] →
           l ∈ preamble ++ [start_node_line; start_edge_line (lit "Q0"); lit "}"]
           ∨ ∃ a ida, (a ∈ order) ∧ (a ≠ _trap_node d)
               ∧ dict_get a (node_ids st) = Some ida
               ∧ (l = accept_line ida
                  ∨ ∃ ch c idc, dict_get ch (children (deref (mem d) a)) = Some c
                      ∧ (c ∈ order) ∧ (c ≠ _trap_node d)
                      ∧ dict_get c (node_ids st) = Some idc
                      ∧ l = edge_line ida idc (escape ch))).
Proof.
  intros d. pose proof (wf_build A ws) as Hwf. fold d in Hwf.
  destruct (foldl_insert_fields A (init A) ws (wf_init A)) as (_ & _ & Ht).
  fold (build A ws) in Ht. fold d in Ht.
  split_and!; [done | apply (live_trap _ _ _ Hwf) | apply (live_ne _ _ _ Hwf)
              | apply (live_no_edge _ _ _ Hwf) | |].
  - intros w Hw.
    by apply (walk_avoids _ _ _ _ _ (live_no_edge _ _ _ Hwf) (live_ne _ _ _ Hwf) Hw).
  - destruct (bfs_run_wf d Hwf)
      as (st & order & Hrun & Ho & [Hids Hseen] & Hl & _ & _ & Hal & Hch & _).
    exists st, order. assert (_trap_node d ∉ order) as Hni.
    { intros Hin. by destruct (Hal _ Hin). }
    split_and!; [done | | by rewrite Hseen | done | done | | |].
    + rewrite Hids. by apply dict_get_numbering_None.
    + unfold to_dot. by rewrite Hrun.
    + by apply lines_by_node_ids.
    + assert (qname 0 = lit "Q0") as Hq by by vm_compute.
      rewrite Hl, Hids. unfold body_lines. rewrite Hq. intros l.
      rewrite !elem_of_app. intros [[Hin|[Hin|Hin]]|Hin].
      * left. by left.
      * left. right.
        apply elem_of_cons in Hin as [->|Hin]; [apply list_elem_of_here|].
        apply list_elem_of_singleton in Hin as ->.
        apply list_elem_of_further, list_elem_of_here.
      * right. apply list_elem_of_bind in Hin as (a & Hin & Ha).
        destruct (Hal _ Ha) as [_ Hat].
        exists a, (id_of order a).
        split_and!; [done | done | by apply dict_get_numbering_Some |].
        unfold block in Hin. apply elem_of_app in Hin as [Hin|Hin].
        -- left. destruct (is_final (deref (mem d) a)); [|by apply elem_of_nil in Hin].
           by apply list_elem_of_singleton in Hin.
        -- right. apply list_elem_of_fmap in Hin as ([ch c] & -> & He). simpl.
           assert (c ∈ order) as Hc by apply (Hch a (ch, c) Ha He).
           destruct (Hal _ Hc) as [_ Hct].
           exists ch, c, (id_of order c).
           split_and!; [| done | done | by apply dict_get_numbering_Some | done].
           unfold deref in He |- *.
           destruct (mem d !! a) as [x|] eqn:Hx; simpl in *;
             [|by apply elem_of_nil in He].
           by apply dict_get_unique; [apply (live_keys _ _ _ Hwf _ _ Hx)|].
      * left. apply list_elem_of_singleton in Hin as ->.
        right. do 2 apply list_elem_of_further. apply list_elem_of_here.
Qed.

(** ** Insertion under two allocators *)

Lemma node_rel_mono (R R' : nat → nat → Prop) n1 n2 :
  (∀ x y, R x y → R' x y) → node_rel R n1 n2 → node_rel R' n1 n2.
Proof.
  intros HR [Hf Hc]. split; [done|].
  eapply Forall2_impl; [done|]. intros e1 e2 [? ?]. auto.
Qed.

Lemma dict_get_rel (R : nat → nat → Prop) ch (cs1 cs2 : list (N * nat)) :
  Forall2 (λ e1 e2, e1.1 = e2.1 ∧ R e1.2 e2.2) cs1 cs2 →
  option_Forall2 R (dict_get ch cs1) (dict_get ch cs2).
Proof.
  induction 1 as [|[k1 c1] [k2 c2] cs1 cs2 [Hk Hc] _ IH]; simpl; [constructor|].
  simpl in Hk, Hc. subst k2. case_decide; [by constructor | done].
Qed.

Section two_allocators.
Variables A1 A2 : allocator.

Lemma setdefault_iso R h1 h2 n1 n2 ch :
  iso R h1 h2 → R n1 n2 →
  ∃ R' : nat → nat → Prop,
    (∀ x y, R x y → R' x y)
    ∧ iso R' (setdefault A1 h1 n1 ch).1 (setdefault A2 h2 n2 ch).1
    ∧ R' (setdefault A1 h1 n1 ch).2 (setdefault A2 h2 n2 ch).2.
Proof.
  intros Hiso Hn. destruct (iso_nodes _ _ _ Hiso _ _ Hn) as (x1 & x2 & H1 & H2 & Hf & Hc).
  pose proof (dict_get_rel R ch _ _ Hc) as Hrel.
  destruct (dict_get ch (children x1)) as [c1|] eqn:Hg1;
    destruct (dict_get ch (children x2)) as [c2|] eqn:Hg2;
    inversion Hrel as [? ? Hcc|]; subst.
  - rewrite (setdefault_hit A1 _ _ _ _ _ H1 Hg1), (setdefault_hit A2 _ _ _ _ _ H2 Hg2).
    exists R. done.
  - rewrite (setdefault_miss A1 _ _ _ _ H1 Hg1), (setdefault_miss A2 _ _ _ _ H2 Hg2).
    simpl. set (a1 := alloc A1 h1). set (a2 := alloc A2 h2).
    assert (h1 !! a1 = None) as Ha1 by apply alloc_fresh.
    assert (h2 !! a2 = None) as Ha2 by apply alloc_fresh.
    assert (∀ x y, R x y → x ≠ a1 ∧ y ≠ a2) as Hold.
    { intros x y Hxy. destruct (iso_nodes _ _ _ Hiso _ _ Hxy) as (? & ? & ? & ? & _).
      split; intros ->; congruence. }
    set (R' := λ x y, R x y ∨ (x = a1 ∧ y = a2)).
    assert (∀ x y, R x y → R' x y) as Hsub by (intros; by left).
    exists R'. split_and!; [done | split | by right].
    + intros x y [Hxy|[-> ->]].
      * destruct (Hold _ _ Hxy) as [Hx Hy].
        destruct (decide (x = n1)) as [->|Hxn].
        -- assert (y = n2) as -> by apply (iso_fun _ _ _ Hiso _ _ _ Hxy Hn).
           rewrite !lookup_insert_eq. do 2 eexists. split_and!; [done | done |].
           split; [done|]. simpl. apply Forall2_app.
           ++ eapply Forall2_impl; [done|]. intros e1 e2 [? ?]. auto.
           ++ constructor; [split; [done | by right] | constructor].
        -- assert (y ≠ n2) as Hyn.
           { intros ->. apply Hxn. apply (iso_inj _ _ _ Hiso _ _ _ Hxy Hn). }
           rewrite !lookup_insert_ne by done.
           destruct (iso_nodes _ _ _ Hiso _ _ Hxy) as (y1 & y2 & ? & ? & ?).
           exists y1, y2. split_and!; [done | done | by eapply node_rel_mono].
      * assert (n1 ≠ a1) by congruence. assert (n2 ≠ a2) by congruence.
        rewrite (lookup_insert_ne _ n1 a1), (lookup_insert_ne _ n2 a2) by done.
        rewrite !lookup_insert_eq.
        do 2 eexists. split_and!; [done | done |]. split; [done | constructor].
    + intros x y y' [Hxy|[-> ->]] [Hxy'|[? ->]].
      * apply (iso_fun _ _ _ Hiso _ _ _ Hxy Hxy').
      * by destruct (Hold _ _ Hxy).
      * by destruct (Hold _ _ Hxy').
      * done.
    + intros x x' y [Hxy|[-> ->]] [Hxy'|[-> ?]].
      * apply (iso_inj _ _ _ Hiso _ _ _ Hxy Hxy').
      * by destruct (Hold _ _ Hxy).
      * by destruct (Hold _ _ Hxy').
      * done.
Qed.

Lemma insert_loop_iso R h1 h2 n1 n2 w :
  iso R h1 h2 → R n1 n2 →
  ∃ R' : nat → nat → Prop,
    (∀ x y, R x y → R' x y)
    ∧ iso R' (insert_loop A1 h1 n1 w).1 (insert_loop A2 h2 n2 w).1
    ∧ R' (insert_loop A1 h1 n1 w).2 (insert_loop A2 h2 n2 w).2.
Proof.
  revert R h1 h2 n1 n2. induction w as [|ch w IH]; intros R h1 h2 n1 n2 Hiso Hn; simpl.
  - by exists R.
  - destruct (setdefault_iso R h1 h2 n1 n2 ch Hiso Hn) as (R1 & Hsub1 & Hiso1 & Hc1).
    destruct (setdefault A1 h1 n1 ch) as [h1' c1], (setdefault A2 h2 n2 ch) as [h2' c2].
    destruct (IH R1 h1' h2' c1 c2 Hiso1 Hc1) as (R' & Hsub' & Hiso' & Hn').
    exists R'. split_and!; [auto | done | done].
Qed.

Lemma set_final_iso R h1 h2 n1 n2 :
  iso R h1 h2 → R n1 n2 → iso R (set_final h1 n1) (set_final h2 n2).
Proof.
  intros Hiso Hn. destruct (iso_nodes _ _ _ Hiso _ _ Hn) as (x1 & x2 & H1 & H2 & Hf & Hc).
  unfold set_final. rewrite (deref_Some _ _ _ H1), (deref_Some _ _ _ H2).
  split; [|apply (iso_fun _ _ _ Hiso) | apply (iso_inj _ _ _ Hiso)].
  intros x y Hxy. destruct (decide (x = n1)) as [->|Hxn].
  - assert (y = n2) as -> by apply (iso_fun _ _ _ Hiso _ _ _ Hxy Hn).
    rewrite !lookup_insert_eq. do 2 eexists. split_and!; [done | done |]. by split.
  - assert (y ≠ n2) as Hyn.
    { intros ->. apply Hxn. apply (iso_inj _ _ _ Hiso _ _ _ Hxy Hn). }
    rewrite !lookup_insert_ne by done. apply (iso_nodes _ _ _ Hiso _ _ Hxy).
Qed.

Lemma insert_iso R d1 d2 w :
  iso R (mem d1) (mem d2) → R (_root d1) (_root d2) →
  ∃ R' : nat → nat → Prop,
    iso R' (mem (insert A1 d1 w)) (mem (insert A2 d2 w))
    ∧ R' (_root (insert A1 d1 w)) (_root (insert A2 d2 w)).
Proof.
  intros Hiso Hr.
  destruct (insert_loop_iso R _ _ _ _ w Hiso Hr) as (R' & Hsub & Hiso' & Hn').
  unfold insert.
  destruct (insert_loop A1 (mem d1) (_root d1) w) as [h1 n1].
  destruct (insert_loop A2 (mem d2) (_root d2) w) as [h2 n2].
  exists R'. simpl. split; [by apply set_final_iso | auto].
Qed.

Lemma init_iso :
  ∃ R : nat → nat → Prop,
    iso R (mem (init A1)) (mem (init A2)) ∧ R (_root (init A1)) (_root (init A2)).
Proof.
  pose proof (wf_init A1) as [_ [x1 Hx1] _ _ _ _].
  pose proof (wf_init A2) as [_ [x2 Hx2] _ _ _ _].
  exists (λ x y, x = _root (init A1) ∧ y = _root (init A2)). split; [split|done].
  - intros x y [-> ->]. exists x1, x2. split_and!; [done | done |].
    assert (∀ A, x1 = x1 → ∀ x, mem (init A) !! _root (init A) = Some x → x = new_node)
      as Hnew.
    { intros A _ x. unfold init. simpl. rewrite !lookup_insert.
      repeat case_decide; naive_solver. }
    rewrite (Hnew A1 eq_refl x1 Hx1), (Hnew A2 eq_refl x2 Hx2). split; [done | constructor].
  - by intros x y y' [_ ->] [_ ->].
  - by intros x x' y [-> _] [-> _].
Qed.

Lemma build_iso ws :
  ∃ R : nat → nat → Prop,
    iso R (mem (build A1 ws)) (mem (build A2 ws))
    ∧ R (_root (build A1 ws)) (_root (build A2 ws)).
Proof.
  unfold build. destruct init_iso as (R & Hiso & Hr). revert R Hiso Hr.
  generalize (init A1) (init A2).
  induction ws as [|w ws IH]; intros d1 d2 R Hiso Hr; simpl; [by exists R|].
  destruct (insert_iso R d1 d2 w Hiso Hr) as (R' & Hiso' & Hr'). by eapply IH.
Qed.
End two_allocators.

(** ** The export of stores that differ in their addresses only *)

Section export_iso.
Variable R : nat → nat → Prop.
Variables h1 h2 : gmap nat Node.
Hypothesis Hiso : iso R h1 h2.

Lemma elem_of_rel (l1 l2 : list nat) a1 a2 :
  Forall2 R l1 l2 → R a1 a2 → a1 ∈ l1 ↔ a2 ∈ l2.
Proof.
  intros Hl Ha. induction Hl as [|x1 x2 l1 l2 Hx _ IH].
  - split; by intros ?%elem_of_nil.
  - rewrite !elem_of_cons, IH. split.
    + intros [->|?]; [left | by right]. apply (iso_fun _ _ _ Hiso _ _ _ Ha Hx).
    + intros [->|?]; [left | by right]. apply (iso_inj _ _ _ Hiso _ _ _ Ha Hx).
Qed.

Lemma children_rel a1 a2 :
  R a1 a2 →
  is_final (deref h1 a1) = is_final (deref h2 a2)
  ∧ Forall2 (λ e1 e2, e1.1 = e2.1 ∧ R e1.2 e2.2)
      (children (deref h1 a1)) (children (deref h2 a2)).
Proof.
  intros Ha. destruct (iso_nodes _ _ _ Hiso _ _ Ha) as (x1 & x2 & H1 & H2 & Hrel).
  by rewrite (deref_Some _ _ _ H1), (deref_Some _ _ _ H2).
Qed.

Lemma foldl_discover_rel (cs1 cs2 o1 o2 q1 q2 : list nat) :
  Forall2 R cs1 cs2 → Forall2 R o1 o2 → Forall2 R q1 q2 →
  Forall2 R (foldl discover (o1, q1) cs1).1 (foldl discover (o2, q2) cs2).1
  ∧ Forall2 R (foldl discover (o1, q1) cs1).2 (foldl discover (o2, q2) cs2).2.
Proof.
  intros Hcs. revert o1 o2 q1 q2.
  induction Hcs as [|c1 c2 cs1 cs2 Hc _ IH]; intros o1 o2 q1 q2 Ho Hq; simpl; [done|].
  unfold discover at 2 4 6 8. simpl.
  destruct (decide (c1 ∈ o1)) as [Hin|Hin], (decide (c2 ∈ o2)) as [Hin'|Hin'].
  - by apply IH.
  - by apply (elem_of_rel _ _ _ _ Ho Hc) in Hin.
  - by apply (elem_of_rel _ _ _ _ Ho Hc) in Hin'.
  - apply IH; apply Forall2_app; try done; by repeat constructor.
Qed.

Lemma bfs_order_loop_rel fuel (o1 o2 q1 q2 : list nat) :
  Forall2 R o1 o2 → Forall2 R q1 q2 →
  option_Forall2 (Forall2 R) (bfs_order_loop h1 fuel o1 q1) (bfs_order_loop h2 fuel o2 q2).
Proof.
  revert o1 o2 q1 q2. induction fuel as [|fuel IH]; intros o1 o2 q1 q2 Ho Hq.
  - destruct Hq; simpl; by constructor.
  - destruct Hq as [|a1 a2 q1 q2 Ha Hq]; simpl; [by constructor|].
    destruct (children_rel a1 a2 Ha) as [_ Hc].
    assert (Forall2 R (children (deref h1 a1)).*2 (children (deref h2 a2)).*2) as Hc2.
    { apply Forall2_fmap. eapply Forall2_impl; [done|]. by intros e1 e2 [_ ?]. }
    destruct (foldl_discover_rel _ _ _ _ _ _ Hc2 Ho Hq) as [Ho' Hq'].
    destruct (foldl discover (o1, q1) _) as [o1' q1'].
    destruct (foldl discover (o2, q2) _) as [o2' q2']. by apply IH.
Qed.

Lemma dict_get_imap_rel (f : nat → list N) (o1 o2 : list nat) a1 a2 :
  Forall2 R o1 o2 → R a1 a2 →
  dict_get a1 (imap (λ i a, (a, f i)) o1) = dict_get a2 (imap (λ i a, (a, f i)) o2).
Proof.
  intros Ho Ha. revert f. induction Ho as [|x1 x2 o1 o2 Hx _ IH]; intros f; simpl; [done|].
  destruct (decide (a1 = x1)) as [->|Hne], (decide (a2 = x2)) as [->|Hne'].
  - done.
  - destruct Hne'. apply (iso_fun _ _ _ Hiso _ _ _ Ha Hx).
  - destruct Hne. apply (iso_inj _ _ _ Hiso _ _ _ Ha Hx).
  - apply (IH (f ∘ S)).
Qed.

Lemma id_of_rel (o1 o2 : list nat) a1 a2 :
  Forall2 R o1 o2 → R a1 a2 → id_of o1 a1 = id_of o2 a2.
Proof.
  intros Ho Ha. unfold id_of, numbering. by rewrite (dict_get_imap_rel qname _ _ _ _ Ho Ha).
Qed.

Lemma block_rel (o1 o2 : list nat) a1 a2 :
  Forall2 R o1 o2 → R a1 a2 → block h1 o1 a1 = block h2 o2 a2.
Proof.
  intros Ho Ha. unfold block. destruct (children_rel a1 a2 Ha) as [-> Hc].
  rewrite (id_of_rel _ _ _ _ Ho Ha). f_equal.
  induction Hc as [|[k1 c1] [k2 c2] cs1 cs2 [Hk Hcc] _ IH]; [done|].
  simpl in Hk, Hcc. subst k2. rewrite !fmap_cons. simpl.
  by rewrite IH, (id_of_rel _ _ _ _ Ho Hcc).
Qed.

Lemma body_lines_rel (o1 o2 : list nat) :
  Forall2 R o1 o2 → body_lines h1 o1 = body_lines h2 o2.
Proof.
  intros Ho. unfold body_lines. do 2 f_equal.
  assert (∀ l1 l2, Forall2 R l1 l2 → l1 ≫= block h1 o1 = l2 ≫= block h2 o2) as Hb.
  { induction 1 as [|a1 a2 l1 l2 Ha _ IH]; [done|].
    rewrite !bind_cons. by rewrite IH, (block_rel _ _ _ _ Ho Ha). }
  by apply Hb.
Qed.
End export_iso.

Lemma bfs_order_loop_mono h fuel fuel' order q order' :
  fuel ≤ fuel' → bfs_order_loop h fuel order q = Some order' →
  bfs_order_loop h fuel' order q = Some order'.
Proof.
  revert fuel' order q. induction fuel as [|fuel IH]; intros fuel' order q Hle.
  - destruct q; simpl; [|done]. intros [= <-]. by destruct fuel'.
  - destruct fuel' as [|fuel']; [lia|]. destruct q as [|node q]; simpl; [done|].
    destruct (foldl discover (order, q) _) as [o' q']. apply IH. lia.
Qed.

(** ** The claim on reproducibility *)

(** C9: the export of an automaton depends on the history of insertions
    only: wherever the two runtimes place the objects, the two automatons
    built by the same insertions export the same text. *)
Theorem export_deterministic (A1 A2 : allocator) (ws : list (list N)) :
  is_Some (to_dot (build A1 ws)) ∧ to_dot (build A1 ws) = to_dot (build A2 ws).
Proof.
  destruct (bfs_run_wf _ (wf_build A1 ws)) as (st1 & o1 & Hrun1 & Ho1 & _ & Hl1 & _).
  destruct (bfs_run_wf _ (wf_build A2 ws)) as (st2 & o2 & Hrun2 & Ho2 & _ & Hl2 & _).
  unfold to_dot. rewrite Hrun1, Hrun2. simpl. split; [done|].
  destruct (build_iso A1 A2 ws) as (R & Hiso & Hr).
  set (fuel := size (mem (build A1 ws)) `max` size (mem (build A2 ws))).
  apply (bfs_order_loop_mono _ _ fuel) in Ho1; [|lia].
  apply (bfs_order_loop_mono _ _ fuel) in Ho2; [|lia].
  pose proof (bfs_order_loop_rel R _ _ Hiso fuel
    [_root (build A1 ws)] [_root (build A2 ws)]
    [_root (build A1 ws)] [_root (build A2 ws)]) as Hrel.
  rewrite Ho1, Ho2 in Hrel.
  lapply Hrel; [clear Hrel; intros Hrel | by repeat constructor].
  lapply Hrel; [clear Hrel; intros Hrel | by repeat constructor].
  inversion Hrel as [? ? Ho|]; subst.
  by rewrite Hl1, Hl2, (body_lines_rel R _ _ Hiso _ _ Ho).
Qed.

(** ** Telling the lines of the export apart *)
















Lemma body_lines_split h order :
  body_lines h order ++ [lit "}"] =
  (preamble ++ [start_node_line; start_edge_line (qname 0)])
  ++ (order ≫= block h order) ++ [lit "}"].
Proof. unfold body_lines. by rewrite <- !app_assoc. Qed.







(** ** The claim on the shape of the export *)


(** ** The tree holds the inserted words and nothing else *)

Lemma walk_path_of h root t P F po a w n :
  shaped h root t P F po → walk h a w = Some n → po n = po a ++ w.
Proof.
  intros Hsh. revert a. induction w as [|ch w IH]; intros a; simpl.
  - intros [= <-]. by rewrite app_nil_r.
  - destruct (dict_get ch (children (deref h a))) as [c|] eqn:Hg; [|done].
    intros Hw. rewrite (IH _ Hw). unfold deref in Hg.
    destruct (h !! a) as [x|] eqn:Ha; [|done]. simpl in Hg.
    pose proof (sh_edge _ _ _ _ _ _ Hsh a x (ch, c) Ha (dict_get_elem _ _ _ Hg)) as He.
    simpl in He. by rewrite He, <- app_assoc.
Qed.

Lemma walk_allocated h a w n :
  closed h → is_Some (h !! a) → walk h a w = Some n → is_Some (h !! n).
Proof.
  intros Hcl. revert a. induction w as [|ch w IH]; intros a Ha; simpl.
  - by intros [= <-].
  - destruct (dict_get ch (children (deref h a))) as [c|] eqn:Hg; [|done].
    apply IH. apply (children_deref_closed h a (ch, c) Hcl). by apply dict_get_elem.
Qed.

Lemma shaped_mono h root t (P P' F F' : list N → Prop) po :
  (∀ p, P p → P' p) → (∀ p, F p → F' p) →
  shaped h root t P F po → shaped h root t P' F' po.
Proof. intros HP HF [? ? ? ? ?]. split; eauto. Qed.

Lemma extends_allocated h h' a : extends h h' → is_Some (h !! a) → is_Some (h' !! a).
Proof. intros Hext [n Hn]. destruct (Hext _ _ Hn) as (n' & -> & _). done. Qed.

Section tree_shape.
Variable A : allocator.

Lemma setdefault_shaped h root t P F po node ch h' c :
  live h t node → is_Some (h !! root) → shaped h root t P F po →
  P (po node ++ [ch]) → setdefault A h node ch = (h', c) →
  ∃ po', shaped h' root t P F po' ∧ po' c = po node ++ [ch]
         ∧ ∀ a, is_Some (h !! a) → po' a = po a.
Proof.
  intros Hl Hr Hsh HP Hsd.
  destruct (setdefault_live A _ _ _ _ _ _ Hl Hsd) as (Hl' & Hext & Hg').
  destruct (live_node _ _ _ Hl) as [n Hn].
  destruct (dict_get ch (children n)) as [c'|] eqn:Hg.
  - rewrite (setdefault_hit A _ _ _ _ _ Hn Hg) in Hsd. simplify_eq.
    exists po. split_and!; [done | | done].
    apply (sh_edge _ _ _ _ _ _ Hsh node n (ch, c) Hn (dict_get_elem _ _ _ Hg)).
  - rewrite (setdefault_miss A _ _ _ _ Hn Hg) in Hsd. simplify_eq.
    set (a := alloc A h) in *.
    set (h' := <[node:=_]> (<[a:=new_node]> h)) in *.
    assert (h !! a = None) as Ha by apply alloc_fresh.
    assert (∀ x, is_Some (h !! x) → x ≠ a) as Hold.
    { intros x [? Hx] ->. congruence. }
    set (po' := λ x, if decide (x = a) then po node ++ [ch] else po x).
    assert (∀ x, is_Some (h !! x) → po' x = po x) as Hkeep.
    { intros x Hx. unfold po'. by rewrite decide_False by by apply Hold. }
    assert (po' a = po node ++ [ch]) as Hpa by (unfold po'; by rewrite decide_True).
    assert (∀ x nx, h' !! x = Some nx → x ≠ a → x ≠ node → h !! x = Some nx) as Hother.
    { intros x nx Hx ? ?. unfold h' in Hx. by rewrite !lookup_insert_ne in Hx. }
    assert (h' !! a = Some new_node) as Hha.
    { unfold h'. rewrite lookup_insert_ne, lookup_insert_eq; [done|].
      apply Hold. by exists n. }
    assert (h' !! node = Some (mkNode (children n ++ [(ch, a)]) (is_final n))) as Hhn
      by (unfold h'; by rewrite lookup_insert_eq).
    exists po'. split_and!; [split | done | done].
    + rewrite Hkeep by done. apply (sh_root _ _ _ _ _ _ Hsh).
    + intros x nx e Hx He. destruct (decide (x = node)) as [->|Hxn].
      * rewrite Hhn in Hx. simplify_eq. simpl in He.
        rewrite (Hkeep node) by by exists n.
        apply elem_of_app in He as [He| ->%list_elem_of_singleton]; [|done].
        rewrite Hkeep by apply (live_closed _ _ _ Hl _ _ _ Hn He).
        apply (sh_edge _ _ _ _ _ _ Hsh _ _ _ Hn He).
      * destruct (decide (x = a)) as [->|Hxa].
        -- rewrite Hha in Hx. simplify_eq. by apply elem_of_nil in He.
        -- pose proof (Hother _ _ Hx Hxa Hxn) as Hx'.
           rewrite (Hkeep x) by by exists nx.
           rewrite Hkeep by apply (live_closed _ _ _ Hl _ _ _ Hx' He).
           apply (sh_edge _ _ _ _ _ _ Hsh _ _ _ Hx' He).
    + intros x Hx Hxt. destruct (decide (x = a)) as [->|Hxa].
      * rewrite Hpa, walk_app.
        rewrite (walk_extends _ _ _ _ _ Hext
                   (sh_reach _ _ _ _ _ _ Hsh node (live_node _ _ _ Hl) (live_ne _ _ _ Hl))).
        simpl. by rewrite Hg'.
      * assert (is_Some (h !! x)) as Hx'.
        { destruct Hx as [nx Hx]. destruct (decide (x = node)) as [->|Hxn]; [by exists n|].
          exists nx. by apply Hother. }
        rewrite Hkeep by done.
        apply (walk_extends _ _ _ _ _ Hext), (sh_reach _ _ _ _ _ _ Hsh); done.
    + intros x Hx Hxt. destruct (decide (x = a)) as [->|Hxa]; [by rewrite Hpa|].
      assert (is_Some (h !! x)) as Hx'.
      { destruct Hx as [nx Hx]. destruct (decide (x = node)) as [->|Hxn]; [by exists n|].
        exists nx. by apply Hother. }
      rewrite Hkeep by done. by apply (sh_used _ _ _ _ _ _ Hsh).
    + intros x nx Hx Hfin. destruct (decide (x = node)) as [->|Hxn].
      * rewrite Hhn in Hx. simplify_eq. simpl in Hfin.
        rewrite Hkeep by by exists n. by apply (sh_final _ _ _ _ _ _ Hsh node n).
      * destruct (decide (x = a)) as [->|Hxa].
        -- rewrite Hha in Hx. by simplify_eq.
        -- pose proof (Hother _ _ Hx Hxa Hxn) as Hx'.
           rewrite Hkeep by by exists nx. by apply (sh_final _ _ _ _ _ _ Hsh x nx).
Qed.

Lemma insert_loop_shaped h root t P F po node w h' n' :
  live h t node → is_Some (h !! root) → shaped h root t P F po →
  (∀ p, p ≠ [] → p `prefix_of` w → P (po node ++ p)) →
  insert_loop A h node w = (h', n') →
  ∃ po', shaped h' root t P F po' ∧ po' n' = po node ++ w
         ∧ ∀ a, is_Some (h !! a) → po' a = po a.
Proof.
  revert h po node. induction w as [|ch w IH]; intros h po node Hl Hr Hsh HP; simpl.
  - intros [= <- <-]. exists po. by rewrite app_nil_r.
  - destruct (setdefault A h node ch) as [h1 c] eqn:Hsd. intros Hloop.
    destruct (setdefault_live A _ _ _ _ _ _ Hl Hsd) as (Hl1 & Hext1 & _).
    destruct (setdefault_shaped _ _ _ _ _ _ _ _ _ _ Hl Hr Hsh
                (HP [ch] ltac:(done) ltac:(by apply prefix_cons, prefix_nil)) Hsd)
      as (po1 & Hsh1 & Hc1 & Hk1).
    destruct (IH h1 po1 c Hl1 (extends_allocated _ _ _ Hext1 Hr) Hsh1) as (po' & Hsh' & Hn' & Hk');
      [|done|].
    + intros p Hp Hpre. rewrite Hc1, <- app_assoc. apply HP; [done|].
      by apply prefix_cons.
    + exists po'. split_and!; [done | by rewrite Hn', Hc1, <- app_assoc |].
      intros a Ha. rewrite Hk' by by eapply extends_allocated. by apply Hk1.
Qed.

Lemma set_final_shaped h root t P F po node x :
  live h t node → is_Some (h !! x) → x ≠ t → shaped h root t P F po →
  F (po node) → shaped (set_final h node) root t P F po.
Proof.
  intros Hl Hx Hxt Hsh HF.
  destruct (set_final_live _ _ _ _ Hl Hx Hxt) as (_ & Hext & _).
  destruct (live_node _ _ _ Hl) as [n Hn].
  assert (∀ y ny, set_final h node !! y = Some ny →
    ∃ my, h !! y = Some my ∧ children ny = children my
          ∧ (is_final ny = true → y = node ∨ is_final my = true)) as Hback.
  { intros y ny. unfold set_final. rewrite (deref_Some _ _ _ Hn).
    destruct (decide (node = y)) as [->|Hne].
    - rewrite lookup_insert_eq. intros [= <-]. exists n. auto.
    - rewrite lookup_insert_ne by done. intros Hy. exists ny. auto. }
  split.
  - apply (sh_root _ _ _ _ _ _ Hsh).
  - intros a na e Ha He. destruct (Hback _ _ Ha) as (ma & Ha' & Hc & _).
    rewrite Hc in He. apply (sh_edge _ _ _ _ _ _ Hsh _ _ _ Ha' He).
  - intros a [na Ha] Hat. destruct (Hback _ _ Ha) as (ma & Ha' & _).
    apply (walk_extends _ _ _ _ _ Hext), (sh_reach _ _ _ _ _ _ Hsh); [by exists ma | done].
  - intros a [na Ha] Hat. destruct (Hback _ _ Ha) as (ma & Ha' & _).
    apply (sh_used _ _ _ _ _ _ Hsh); [by exists ma | done].
  - intros a na Ha Hfin. destruct (Hback _ _ Ha) as (ma & Ha' & _ & Hf).
    destruct (Hf Hfin) as [->|Hfm]; [done|]. by apply (sh_final _ _ _ _ _ _ Hsh a ma).
Qed.

Lemma insert_shaped d w ws po :
  wf d →
  shaped (mem d) (_root d) (_trap_node d) (stored_prefix ws) (λ p, p ∈ ws) po →
  ∃ po', shaped (mem (insert A d w)) (_root (insert A d w)) (_trap_node (insert A d w))
           (stored_prefix (ws ++ [w])) (λ p, p ∈ ws ++ [w]) po'.
Proof.
  intros Hwf Hsh.
  apply (shaped_mono _ _ _ _ (stored_prefix (ws ++ [w])) _ (λ p, p ∈ ws ++ [w])) in Hsh.
  2:{ intros p [->|(w' & Hw' & Hp)]; [by left|]. right. exists w'.
      split; [|done]. apply elem_of_app. by left. }
  2:{ intros p Hp. apply elem_of_app. by left. }
  unfold insert. destruct (insert_loop A (mem d) (_root d) w) as [h n] eqn:Hloop. simpl.
  destruct (insert_loop_live A _ _ _ _ _ _ Hwf Hloop) as (Hl & Hext & _).
  destruct (insert_loop_shaped (mem d) (_root d) (_trap_node d) _ _ po (_root d) w h n
              Hwf (live_node _ _ _ Hwf) Hsh) as (po' & Hsh' & Hn' & _); [|done|].
  { intros p _ Hp. rewrite (sh_root _ _ _ _ _ _ Hsh). simpl. right. exists w.
    split; [|done]. apply elem_of_app. right. left. }
  exists po'.
  apply (set_final_shaped _ _ _ _ _ _ _ (_root d) Hl); [| apply (live_ne _ _ _ Hwf) | done |].
  - apply (extends_allocated _ _ _ Hext), (live_node _ _ _ Hwf).
  - rewrite Hn', (sh_root _ _ _ _ _ _ Hsh). simpl. apply elem_of_app. right. left.
Qed.

Lemma init_shaped :
  shaped (mem (init A)) (_root (init A)) (_trap_node (init A))
    (stored_prefix []) (λ p, p ∈ @nil (list N)) (λ _, []).
Proof.
  pose proof (wf_init A) as Hwf.
  assert (∀ a n, mem (init A) !! a = Some n →
    n = new_node ∧ (a = _root (init A) ∨ a = _trap_node (init A))) as Hall.
  { intros a n. unfold init. simpl. rewrite !lookup_insert.
    repeat case_decide; naive_solver. }
  split; [done | | | |].
  - intros a n e Ha He. destruct (Hall _ _ Ha) as [-> _]. by apply elem_of_nil in He.
  - intros a [n Ha] Hat. destruct (Hall _ _ Ha) as [_ [-> | ->]]; done.
  - intros a _ _. by left.
  - intros a n Ha Hfin. destruct (Hall _ _ Ha) as [-> _]. done.
Qed.

Lemma foldl_insert_shaped d ws0 ws po :
  wf d →
  shaped (mem d) (_root d) (_trap_node d) (stored_prefix ws0) (λ p, p ∈ ws0) po →
  ∃ po', shaped (mem (foldl (insert A) d ws)) (_root (foldl (insert A) d ws))
           (_trap_node (foldl (insert A) d ws))
           (stored_prefix (ws0 ++ ws)) (λ p, p ∈ ws0 ++ ws) po'.
Proof.
  revert d ws0 po. induction ws as [|w ws IH]; intros d ws0 po Hwf Hsh; simpl.
  - exists po. by rewrite app_nil_r.
  - destruct (insert_shaped d w ws0 po Hwf Hsh) as (po1 & Hsh1).
    destruct (insert_spec A d w Hwf) as (Hwf1 & _).
    destruct (IH _ _ _ Hwf1 Hsh1) as (po' & Hsh').
    exists po'. by rewrite <- app_assoc in Hsh'.
Qed.

Lemma build_shaped ws :
  ∃ po, shaped (mem (build A ws)) (_root (build A ws)) (_trap_node (build A ws))
          (stored_prefix ws) (λ p, p ∈ ws) po.
Proof. apply (foldl_insert_shaped (init A) [] ws _ (wf_init A) init_shaped). Qed.

(** An inserted word leads to an accepting node. *)
Lemma walk_inserted ws w :
  w ∈ ws →
  ∃ n, walk (mem (build A ws)) (_root (build A ws)) w = Some n
       ∧ n ≠ _trap_node (build A ws)
       ∧ is_final (deref (mem (build A ws)) n) = true.
Proof.
  intros (ws1 & ws2 & ->)%list_elem_of_split.
  unfold build. rewrite foldl_app. simpl. fold (build A ws1).
  destruct (insert_spec A _ w (wf_build A ws1)) as (Hwf' & _ & Hr & Ht & n & Hw & Hne & Hfin).
  destruct (foldl_insert_fields A _ ws2 Hwf') as (Hext & -> & ->).
  rewrite Hr, Ht. exists n.
  split_and!; [by eapply walk_extends | done | by eapply extends_final].
Qed.

Lemma accepts_build_true ws text :
  accepts (build A ws) text = true ↔ strip text ∈ ws.
Proof.
  rewrite accepts_true. split.
  - intros (n & Hw & Hne & Hfin). destruct (build_shaped ws) as (po & Hsh).
    pose proof (walk_path_of _ _ _ _ _ _ _ _ _ Hsh Hw) as Hpo.
    rewrite (sh_root _ _ _ _ _ _ Hsh) in Hpo. simpl in Hpo. rewrite <- Hpo.
    unfold deref in Hfin.
    destruct (mem (build A ws) !! n) as [x|] eqn:Hn; [|done].
    by apply (sh_final _ _ _ _ _ _ Hsh n x).
  - intros Hin. by apply walk_inserted.
Qed.
End tree_shape.

(** ** Further properties of insertion and matching *)

Lemma accepts_loop_strip h t node text :
  accepts_loop h t node (strip text) = accepts_loop h t node text.
Proof.
  revert node. induction text as [|ch text IH]; intros node; [done|].
  simpl. destruct (is_punct ch) eqn:Hp.
  - rewrite strip_cons_punct by done. apply IH.
  - rewrite strip_cons_keep by done. simpl. rewrite Hp.
    destruct (dict_get ch (children (deref h node))); [apply IH | done].
Qed.

Lemma setdefault_size A h node ch :
  is_Some (h !! node) →
  size h ≤ size (setdefault A h node ch).1 ≤ S (size h).
Proof.
  intros [n Hn]. destruct (dict_get ch (children n)) as [c|] eqn:Hg.
  - rewrite (setdefault_hit A _ _ _ _ _ Hn Hg). simpl. lia.
  - rewrite (setdefault_miss A _ _ _ _ Hn Hg). simpl.
    assert (alloc A h ≠ node) as Hne.
    { intros E. pose proof (alloc_fresh A h) as Hf. rewrite E in Hf. congruence. }
    rewrite map_size_insert_Some by by rewrite lookup_insert_ne.
    rewrite map_size_insert_None by apply alloc_fresh. lia.
Qed.

Lemma insert_loop_size A h t node w :
  live h t node →
  size h ≤ size (insert_loop A h node w).1 ≤ size h + length w.
Proof.
  revert h node. induction w as [|ch w IH]; intros h node Hl; simpl; [lia|].
  pose proof (setdefault_size A h node ch (live_node _ _ _ Hl)) as Hs.
  destruct (setdefault A h node ch) as [h1 c] eqn:Hsd.
  destruct (setdefault_live A _ _ _ _ _ _ Hl Hsd) as (Hl1 & _).
  specialize (IH h1 c Hl1). simpl in Hs. lia.
Qed.

(** X1: an automaton accepts a text exactly when the text, without its
    punctuation, is one of the words that were inserted. *)
Theorem accepts_exactly_inserted (A : allocator) (ws : list (list N)) (text : list N) :
  accepts (build A ws) text = true ↔ strip text ∈ ws.
Proof. apply accepts_build_true. Qed.

(** X2: the paths stored from the root are the beginnings of the inserted
    words, and only those. *)
Theorem paths_are_prefixes (A : allocator) (ws : list (list N)) (p : list N) :
  let d := build A ws in
  is_Some (walk (mem d) (_root d) p) ↔ p = [] ∨ ∃ w, w ∈ ws ∧ p `prefix_of` w.
Proof.
  intros d. pose proof (wf_build A ws) as Hwf. fold d in Hwf. split.
  - intros [n Hw]. destruct (build_shaped A ws) as (po & Hsh). fold d in Hsh.
    pose proof (walk_path_of _ _ _ _ _ _ _ _ _ Hsh Hw) as Hpo.
    rewrite (sh_root _ _ _ _ _ _ Hsh) in Hpo. simpl in Hpo. rewrite <- Hpo.
    apply (sh_used _ _ _ _ _ _ Hsh).
    + by apply (walk_allocated _ _ _ _ (live_closed _ _ _ Hwf) (live_node _ _ _ Hwf) Hw).
    + by apply (walk_avoids _ _ _ _ _ (live_no_edge _ _ _ Hwf) (live_ne _ _ _ Hwf) Hw).
  - intros [->|(w & Hin & [k ->])]; [by eexists|].
    destruct (walk_inserted A ws _ Hin) as (n & Hw & _). fold d in Hw.
    rewrite walk_app in Hw.
    destruct (walk (mem d) (_root d) p); [by eexists | done].
Qed.

(** X3: the stored transitions form a tree: two different paths from the
    root end in two different nodes. *)
Theorem paths_unique (A : allocator) (ws : list (list N)) (w1 w2 : list N) (n1 n2 : nat) :
  let d := build A ws in
  w1 ≠ w2 →
  walk (mem d) (_root d) w1 = Some n1 → walk (mem d) (_root d) w2 = Some n2 →
  n1 ≠ n2.
Proof.
  intros d Hne H1 H2 ->. destruct (build_shaped A ws) as (po & Hsh). fold d in Hsh.
  pose proof (walk_path_of _ _ _ _ _ _ _ _ _ Hsh H1) as Hp1.
  pose proof (walk_path_of _ _ _ _ _ _ _ _ _ Hsh H2) as Hp2.
  rewrite (sh_root _ _ _ _ _ _ Hsh) in Hp1, Hp2. simpl in Hp1, Hp2. congruence.
Qed.

Lemma paths_unique_witness :
  let d := build first_fit [lit "cat"; lit "car"] in
  walk (mem d) (_root d) (lit "ca") = Some 3
  ∧ walk (mem d) (_root d) (lit "car") = Some 5 ∧ 3 ≠ 5.
Proof.
  split_and!; [by vm_compute | by vm_compute |].
  apply (paths_unique first_fit [lit "cat"; lit "car"] (lit "ca") (lit "car") 3 5);
    [apply (bool_decide_unpack _) | |]; vm_compute; done.
Defined.

(** X4: for every automaton object, two texts that differ in their
    punctuation only get the same answer from [accepts]. *)
Theorem accepts_strip (d : DFA) (t1 t2 : list N) :
  strip t1 = strip t2 → accepts d t1 = accepts d t2.
Proof.
  intros Hs. unfold accepts.
  by rewrite <- (accepts_loop_strip _ _ _ t1), <- (accepts_loop_strip _ _ _ t2), Hs.
Qed.

Lemma accepts_strip_witness :
  accepts (build bump [lit "cat"]) (lit "c.a,t!") = accepts (build bump [lit "cat"]) (lit "(cat)")
  ∧ accepts (build bump [lit "cat"]) (lit "d.o,g") = accepts (build bump [lit "cat"]) (lit "dog").
Proof.
  split.
  - apply (accepts_strip (build bump [lit "cat"]) (lit "c.a,t!") (lit "(cat)")).
    vm_compute. reflexivity.
  - apply (accepts_strip (build bump [lit "cat"]) (lit "d.o,g") (lit "dog")).
    vm_compute. reflexivity.
Defined.

(** X5: the answers of [accepts] depend on the set of inserted words
    only: not on their order, on repetitions, or on where the runtime
    places the nodes. *)
Theorem accepts_same_words (A1 A2 : allocator) (ws1 ws2 : list (list N)) (text : list N) :
  ws1 ⊆ ws2 → ws2 ⊆ ws1 →
  accepts (build A1 ws1) text = accepts (build A2 ws2) text.
Proof.
  intros H12 H21.
  pose proof (accepts_build_true A1 ws1 text) as Hb1.
  pose proof (accepts_build_true A2 ws2 text) as Hb2.
  destruct (accepts (build A1 ws1) text), (accepts (build A2 ws2) text); try done.
  - symmetry. apply Hb2, H12, Hb1. done.
  - apply Hb1, H21, Hb2. done.
Qed.

Lemma accepts_same_words_witness :
  accepts (build first_fit [lit "cat"; lit "car"]) (lit "c,ar")
  = accepts (build bump [lit "car"; lit "cat"; lit "car"]) (lit "c,ar").
Proof.
  apply (accepts_same_words first_fit bump [lit "cat"; lit "car"]
           [lit "car"; lit "cat"; lit "car"] (lit "c,ar"));
    apply (bool_decide_unpack _); vm_compute; exact I.
Defined.

(** X6: one call of [insert] removes no node, keeps the transitions of
    every node and every flag that was set, and adds at most one node per
    symbol of the word. *)
Theorem insert_size_bound (A : allocator) (ws : list (list N)) (w : list N) :
  let d := build A ws in
  dom (mem d) ⊆ dom (mem (insert A d w))
  ∧ extends (mem d) (mem (insert A d w))
  ∧ size (mem d) ≤ size (mem (insert A d w)) ≤ size (mem d) + length w.
Proof.
  intros d. pose proof (wf_build A ws) as Hwf. fold d in Hwf.
  destruct (insert_spec A d w Hwf) as (_ & Hext & _).
  split; [|split; [done|]].
  - intros a Ha%elem_of_dom. by apply elem_of_dom, (extends_allocated _ _ _ Hext).
  - clear Hext. pose proof (insert_loop_size A _ _ _ w Hwf) as Hs. unfold insert.
    destruct (insert_loop A (mem d) (_root d) w) as [h n] eqn:Hloop. simpl in *.
    destruct (insert_loop_live A _ _ _ _ _ _ Hwf Hloop) as (Hl & _).
    unfold set_final. rewrite map_size_insert_Some by apply (live_node _ _ _ Hl). done.
Qed.

(** X7: inserting the beginning of a stored word creates no node: the
    path is there already, and the only change is the flag of the node at
    its end. *)
Theorem insert_prefix_no_alloc (A : allocator) (ws : list (list N)) (w w' : list N) :
  w' ∈ ws → w `prefix_of` w' →
  let d := build A ws in
  ∃ n, walk (mem d) (_root d) w = Some n
       ∧ mem (insert A d w) = set_final (mem d) n
       ∧ size (mem (insert A d w)) = size (mem d).
Proof.
  intros Hin [k ->] d. pose proof (wf_build A ws) as Hwf. fold d in Hwf.
  destruct (walk_inserted A ws _ Hin) as (n' & Hw & _). fold d in Hw.
  rewrite walk_app in Hw.
  destruct (walk (mem d) (_root d) w) as [n|] eqn:Hwn; [|done].
  exists n. unfold insert. rewrite (insert_loop_walk A _ _ _ _ n Hwf Hwn). simpl.
  split_and!; [done | done |].
  unfold set_final. apply map_size_insert_Some.
  by apply (walk_allocated _ _ _ _ (live_closed _ _ _ Hwf) (live_node _ _ _ Hwf) Hwn).
Qed.

Lemma insert_prefix_no_alloc_witness :
  let d := build first_fit [lit "car"; lit "cat"] in
  ∃ n, walk (mem d) (_root d) (lit "ca") = Some n
       ∧ mem (insert first_fit d (lit "ca")) = set_final (mem d) n
       ∧ size (mem (insert first_fit d (lit "ca"))) = size (mem d).
Proof.
  apply (insert_prefix_no_alloc first_fit [lit "car"; lit "cat"] (lit "ca") (lit "cat"));
    apply (bool_decide_unpack _); vm_compute; exact I.
Defined.

(** ** Further properties of the export *)

Lemma escape_spec ch :
  (ch = 92%N ∧ escape ch = [92; 92]%N) ∨ (ch = 34%N ∧ escape ch = [92; 34]%N)
  ∨ (ch ≠ 92%N ∧ ch ≠ 34%N ∧ escape ch = [ch]).
Proof.
  unfold escape, replace. simpl. case_decide as H92.
  - subst ch. left. split; [done | by vm_compute].
  - simpl. case_decide as H34.
    + subst ch. right. left. split; [done | by vm_compute].
    + right. right. split_and!; [done | done | by vm_compute].
Qed.

(** X8: the export gives an identifier to every node of the store but
    the trap, and to nothing else: it shows as many states as the store
    has nodes, less one. *)
Theorem export_covers_store (A : allocator) (ws : list (list N)) :
  let d := build A ws in
  ∃ st, bfs_run d = Some st
        ∧ (∀ a, is_Some (dict_get a (node_ids st))
                ↔ is_Some (mem d !! a) ∧ a ≠ _trap_node d)
        ∧ length (node_ids st) + 1 = size (mem d).
Proof.
  intros d. pose proof (wf_build A ws) as Hwf. fold d in Hwf.
  destruct (bfs_run_wf d Hwf)
    as (st & order & Hrun & _ & [Hids _] & _ & Hp & Hnd & Hal & Hch & _).
  destruct (build_shaped A ws) as (po & Hsh). fold d in Hsh.
  assert (_root d ∈ order) as Hroot by (destruct Hp as [k ->]; left).
  assert (∀ a, a ∈ order ↔ is_Some (mem d !! a) ∧ a ≠ _trap_node d) as Hiff.
  { intros a. split; [apply Hal|]. intros [Ha Hat].
    apply (walk_closed_under _ _ _ _ _ Hch Hroot (sh_reach _ _ _ _ _ _ Hsh a Ha Hat)). }
  exists st. rewrite Hids, numbering_length. split_and!; [done | |].
  - intros a. rewrite <- Hiff. split.
    + intros [s Hs]. destruct (decide (a ∈ order)) as [|Hn]; [done|].
      apply dict_get_numbering_None in Hn. congruence.
    + intros Ha. by rewrite (dict_get_numbering_Some _ _ Ha).
  - rewrite <- (size_list_to_set (C := gset nat) order Hnd), <- size_dom.
    assert (list_to_set order = dom (mem d) ∖ {[_trap_node d]} :> gset nat) as ->.
    { apply set_eq. intros a.
      rewrite elem_of_list_to_set, Hiff, elem_of_difference, elem_of_dom,
        elem_of_singleton. done. }
    assert ({[_trap_node d]} ⊆ dom (mem d)) as Hsub.
    { intros a ->%elem_of_singleton. apply elem_of_dom.
      by rewrite (live_trap _ _ _ Hwf). }
    rewrite (size_difference _ _ Hsub), size_singleton.
    apply subseteq_size in Hsub. rewrite size_singleton in Hsub. lia.
Qed.

(** X9: the lines of the export are its preamble, the two start-marker
    lines, then, for each node in breadth-first discovery order, its
    accepting-style line if it is accepting followed by one edge line per
    transition in insertion order, and the closing brace; a node's
    identifier is [Q] and its rank in the discovery order. *)
Theorem export_structure (A : allocator) (ws : list (list N)) :
  let d := build A ws in
  ∃ order,
    bfs_order d = Some order
    ∧ to_dot d = Some (join newline (
        preamble ++ [start_node_line; start_edge_line (lit "Q0")]
        ++ (order ≫= λ a,
              (if is_final (deref (mem d) a) then [accept_line (id_of order a)] else [])
              ++ ((λ e, edge_line (id_of order a) (id_of order e.2) (escape e.1))
                    <$> children (deref (mem d) a)))
        ++ [lit "}"]))
    ∧ ∀ i a, order !! i = Some a → id_of order a = lit "Q" ++ str_of_nat i.
Proof.
  intros d.
  destruct (bfs_run_wf d (wf_build A ws))
    as (st & order & Hrun & Ho & _ & Hl & _ & Hnd & _).
  exists order. split_and!; [done | |].
  - assert (qname 0 = lit "Q0") as Hq by by vm_compute.
    unfold to_dot. rewrite Hrun. simpl.
    rewrite Hl, body_lines_split, Hq, <- app_assoc. reflexivity.
  - intros i a Hi.
    assert (a ∈ order) as Ha by by eapply list_elem_of_lookup_2.
    pose proof (dict_get_numbering_Some _ _ Ha) as Hg.
    destruct (dict_get_numbering_lookup _ _ _ Hg) as (j & Hj & ->).
    by rewrite (NoDup_lookup _ _ _ _ Hnd Hi Hj).
Qed.

(** X10: every transition stored at a node on a path from the root is
    exported as an edge line from the identifier of that node to the
    identifier of its target, labelled with the escaped symbol. *)
Theorem export_edges (A : allocator) (ws : list (list N)) :
  let d := build A ws in
  ∃ st, bfs_run d = Some st
        ∧ ∀ w a ch c,
            walk (mem d) (_root d) w = Some a →
            dict_get ch (children (deref (mem d) a)) = Some c →
            ∃ ida idc, dict_get a (node_ids st) = Some ida
                       ∧ dict_get c (node_ids st) = Some idc
                       ∧ edge_line ida idc (escape ch) ∈ lines st.
Proof.
  intros d.
  destruct (bfs_run_wf d (wf_build A ws))
    as (st & order & Hrun & _ & [Hids _] & Hl & Hp & _ & _ & Hch & _).
  assert (_root d ∈ order) as Hroot by (destruct Hp as [k ->]; left).
  exists st. split; [done|]. intros w a ch c Hw Hg.
  assert (a ∈ order) as Ha by by eapply walk_closed_under.
  pose proof (dict_get_elem _ _ _ Hg) as He.
  assert (c ∈ order) as Hc by apply (Hch a (ch, c) Ha He).
  exists (id_of order a), (id_of order c). rewrite Hids, Hl.
  split_and!; [by apply dict_get_numbering_Some | by apply dict_get_numbering_Some |].
  unfold body_lines. apply elem_of_app. right. apply elem_of_app. right.
  apply list_elem_of_bind. exists a. split; [|done].
  unfold block. apply elem_of_app. right.
  apply list_elem_of_fmap. by exists (ch, c).
Qed.

(** X11: the escaping of labels keeps symbols apart: two different
    symbols never get the same label. *)
Theorem escape_inj (c1 c2 : N) : c1 ≠ c2 → escape c1 ≠ escape c2.
Proof.
  intros Hne Heq.
  destruct (escape_spec c1) as [[E1 H1]|[[E1 H1]|(? & ? & H1)]],
           (escape_spec c2) as [[E2 H2]|[[E2 H2]|(? & ? & H2)]];
    rewrite H1, H2 in Heq; simplify_eq; done.
Qed.

Lemma escape_inj_witness : escape 34%N ≠ escape 92%N.
Proof. apply (escape_inj 34%N 92%N). vm_compute. discriminate. Defined.
